(** * Session statistics of the dog-training front end (src/App.jsx)

    A shallow embedding of the statistical helpers of [App.jsx]
    ([isSuccessResult], [getConditionValue], [computeNumericStats],
    [buildConditionDistributions]) and of the aggregate-statistics page
    ([processSessions], [buildSeries], [successRanking], [failRanking]),
    followed by the properties the specification states about them
    (C1 to C10).  The values derived by the dog page ([RecordDetail]),
    the summaries under the rankings, the route guards ([RequireAuth],
    [RequireAdmin]) and the submission of the form for a new dog
    ([NewDog]) are embedded as well, with further properties read off the
    code (X1 to X24).

    Numbers.  A JavaScript number is modelled as an exact rational
    ([Qc], canonical fractions, so that [=] is [===]) extended with
    [Infinity], [-Infinity] and [NaN].  Rounding and overflow of the
    binary64 format, and the sign of zero, are outside the model: every
    statement below is about exact arithmetic.  Counters are natural
    numbers, and the bin count is an integer.

    Values.  The [result] column and the [scent] of a session are texts
    or missing; an entry of [conditions] is any JSON scalar.

    Exceptions.  The only one the modelled code can raise is the
    [TypeError] of [bins[idx].success += 1] on a missing bin; functions
    that cannot raise it return their value directly.

    Built-ins.  [Map] keeps insertion order; [Array.prototype.sort] is
    stable; [parseFloat] reads the longest numeric prefix; [toFixed(1)]
    and [Math.round] round halves up (in magnitude for [toFixed]);
    [trim] removes the white space of the ASCII range.

    Backend.  The call that stores a new dog is a parameter of the
    handler that makes it. *)

From Stdlib Require Import QArith Qcanon Qround ZArith String Ascii.
From stdpp Require Import sorting numbers gmap strings list.

Local Open Scope string_scope.
Local Open Scope list_scope.
Local Open Scope Z_scope.

(** ** JavaScript values *)

Inductive jsnum : Type :=
  | Fin (q : Qc)
  | PInf
  | NInf
  | NaN.

Inductive jsval : Type :=
  | JUndefined
  | JNull
  | JBool (b : bool)
  | JNum (x : jsnum)
  | JStr (s : string).

Global Instance jsnum_eq_dec : EqDecision jsnum.
Proof. solve_decision. Defined.

Global Instance jsval_eq_dec : EqDecision jsval.
Proof. solve_decision. Defined.

(** Outcome of a call that may throw: the only exception the modelled code
    can raise is the [TypeError] of reading a property of [undefined]. *)
Inductive res (A : Type) : Type :=
  | Ok (a : A)
  | TypeError.
Arguments Ok {A} a.
Arguments TypeError {A}.

Definition res_bind {A B} (r : res A) (k : A → res B) : res B :=
  match r with
  | Ok a => k a
  | TypeError => TypeError
  end.

Module JS.

(** Integers as numbers. *)
Abbreviation Z2Qc := Qc_of_Z (only parsing).
Definition nat2Qc (n : nat) : Qc := Qc_of_Z (Z.of_nat n).

(** [Number.isFinite]: false on everything that is not a finite number. *)
Definition Number_isFinite (v : jsval) : bool :=
  match v with
  | JNum (Fin _) => true
  | _ => false
  end.

(** Truthiness, as used by [||], [!] and [? :]. *)
Definition num_truthy (x : jsnum) : bool :=
  match x with
  | Fin q => negb (bool_decide (q = 0%Qc))
  | PInf | NInf => true
  | NaN => false
  end.

Definition truthy (v : jsval) : bool :=
  match v with
  | JUndefined | JNull => false
  | JBool b => b
  | JNum x => num_truthy x
  | JStr s => negb (bool_decide (s = ""))
  end.

(** [a || b] on values. *)
Definition or_else (a b : jsval) : jsval := if truthy a then a else b.

(** [a || b] where [a] is a text field that may be missing ([null] or
    [undefined]) and [b] is a string literal. *)
Definition str_or (a : option string) (b : string) : string :=
  match a with
  | Some s => if bool_decide (s = "") then b else s
  | None => b
  end.

(** *** Arithmetic on numbers *)

Definition neg (x : jsnum) : jsnum :=
  match x with
  | Fin q => Fin (- q)%Qc
  | PInf => NInf
  | NInf => PInf
  | NaN => NaN
  end.

Definition add (x y : jsnum) : jsnum :=
  match x, y with
  | NaN, _ | _, NaN => NaN
  | Fin a, Fin b => Fin (a + b)%Qc
  | PInf, NInf | NInf, PInf => NaN
  | PInf, _ | _, PInf => PInf
  | NInf, _ | _, NInf => NInf
  end.

Definition sub (x y : jsnum) : jsnum := add x (neg y).

(** Sign of a number: [Some Lt], [Some Eq], [Some Gt], or [None] for NaN. *)
Definition sgn (x : jsnum) : option comparison :=
  match x with
  | Fin q => Some (q ?= 0)%Qc
  | PInf => Some Gt
  | NInf => Some Lt
  | NaN => None
  end.

Definition inf_of_sign (c1 c2 : comparison) : jsnum :=
  match c1, c2 with
  | Eq, _ | _, Eq => NaN
  | Lt, Lt | Gt, Gt => PInf
  | _, _ => NInf
  end.

Definition mul (x y : jsnum) : jsnum :=
  match x, y with
  | Fin a, Fin b => Fin (a * b)%Qc
  | _, _ =>
      match sgn x, sgn y with
      | Some c1, Some c2 => inf_of_sign c1 c2
      | _, _ => NaN
      end
  end.

Definition div (x y : jsnum) : jsnum :=
  match x, y with
  | NaN, _ | _, NaN => NaN
  | Fin a, Fin b =>
      if bool_decide (b = 0%Qc)
      then inf_of_sign (a ?= 0)%Qc Gt
      else Fin (a / b)%Qc
  | Fin _, _ => Fin 0%Qc
  | _, Fin b =>
      match sgn x with
      | Some c => inf_of_sign c (if bool_decide (b = 0%Qc) then Gt else (b ?= 0)%Qc)
      | None => NaN
      end
  | _, _ => NaN
  end.

(** [x < y] on numbers; false as soon as one side is NaN. *)
Definition ltb (x y : jsnum) : bool :=
  match x, y with
  | NaN, _ | _, NaN => false
  | Fin a, Fin b => bool_decide (a < b)%Qc
  | NInf, NInf | PInf, _ => false
  | NInf, _ => true
  | _, PInf => true
  | _, NInf => false
  end.

(** [Math.min] and [Math.max] of two arguments. *)
Definition min2 (x y : jsnum) : jsnum :=
  match x, y with
  | NaN, _ | _, NaN => NaN
  | _, _ => if ltb y x then y else x
  end.

Definition max2 (x y : jsnum) : jsnum :=
  match x, y with
  | NaN, _ | _, NaN => NaN
  | _, _ => if ltb x y then y else x
  end.

(** [Math.min(...l)] and [Math.max(...l)]. *)
Definition Math_min (l : list jsnum) : jsnum := foldr min2 PInf l.
Definition Math_max (l : list jsnum) : jsnum := foldr max2 NInf l.

Definition Qcfloor (q : Qc) : Z := Qfloor q.

Definition Math_floor (x : jsnum) : jsnum :=
  match x with
  | Fin q => Fin (Z2Qc (Qcfloor q))
  | _ => x
  end.

(** [Math.round] of a finite number: nearest integer, halves go up. *)
Definition Math_round (q : Qc) : Z := Qcfloor (q + 1 / 2)%Qc.

(** *** Strings *)

Definition lower_ascii (c : ascii) : ascii :=
  let n := nat_of_ascii c in
  if (65 <=? n)%nat && (n <=? 90)%nat then ascii_of_nat (n + 32) else c.

(** [String.prototype.toLowerCase] on the ASCII range.  Outside it the
    method maps no character to one of the letters of ["success"], which
    is all the callers compare the result with. *)
Fixpoint toLowerCase (s : string) : string :=
  match s with
  | EmptyString => EmptyString
  | String c r => String (lower_ascii c) (toLowerCase r)
  end.

Definition digit_char (d : Z) : ascii := ascii_of_nat (48 + Z.to_nat d).

Fixpoint digits_fuel (fuel : nat) (n : Z) (acc : string) : string :=
  match fuel with
  | O => acc
  | S f =>
      let acc' := String (digit_char (n mod 10)) acc in
      if n / 10 =? 0 then acc' else digits_fuel f (n / 10) acc'
  end.

(** Decimal digits of a non-negative integer. *)
Definition Z_digits (n : Z) : string :=
  digits_fuel (S (Z.to_nat (Z.log2 n))) n "".

(** [x.toFixed(1)]: the nearest multiple of one tenth (the larger one on
    a tie), written with exactly one digit after the point; the sign is
    taken off first and put back in front.  (From 10^21 on the method
    switches to exponent notation, which is not modelled.) *)
Definition toFixed1 (x : jsnum) : string :=
  match x with
  | Fin q =>
      let neg := bool_decide (q < 0)%Qc in
      let a := if neg then (- q)%Qc else q in
      let n := Qcfloor (a * Z2Qc 10 + 1 / 2)%Qc in
      (if neg then "-" else "") +:+ Z_digits (n / 10) +:+ "." +:+ Z_digits (n mod 10)
  | PInf => "Infinity"
  | NInf => "-Infinity"
  | NaN => "NaN"
  end.

(** *** [parseFloat]

    The longest prefix of the trimmed string that is a decimal literal
    ([Infinity], or digits with an optional fraction and an optional
    well-formed exponent, after an optional sign) is read; [NaN] when
    there is none.  The value is the exact decimal. *)

Definition is_digit (c : ascii) : bool :=
  let n := nat_of_ascii c in (48 <=? n)%nat && (n <=? 57)%nat.

Definition digit_val (c : ascii) : Z := Z.of_nat (nat_of_ascii c) - 48.

Definition is_space (c : ascii) : bool :=
  let n := nat_of_ascii c in
  ((9 <=? n)%nat && (n <=? 13)%nat) || (n =? 32)%nat.

Fixpoint skip_spaces (s : string) : string :=
  match s with
  | String c r => if is_space c then skip_spaces r else s
  | EmptyString => s
  end.

(** Reads a run of digits: the number read so far, how many digits were
    read, and the rest of the input. *)
Fixpoint read_digits (acc : Z) (cnt : nat) (s : string) : Z * nat * string :=
  match s with
  | String c r =>
      if is_digit c then read_digits (10 * acc + digit_val c) (S cnt) r
      else (acc, cnt, s)
  | EmptyString => (acc, cnt, s)
  end.

Definition pow10 (e : Z) : Qc :=
  if (0 <=? e)%Z then Z2Qc (10 ^ e) else (/ Z2Qc (10 ^ (- e)))%Qc.

(** The exponent part at the head of [s], 0 when there is none or when it
    is not followed by at least one digit. *)
Definition read_exponent (s : string) : Z :=
  match s with
  | String c r =>
      if bool_decide (c = "e"%char) || bool_decide (c = "E"%char) then
        let '(sg, r') :=
          match r with
          | String "-" r' => (-1, r')
          | String "+" r' => (1, r')
          | _ => (1, r)
          end in
        let '(e, cnt, _) := read_digits 0 0 r' in
        if (cnt =? 0)%nat then 0 else sg * e
      else 0
  | EmptyString => 0
  end.

(** An unsigned decimal literal at the head of [s]. *)
Definition read_decimal (s : string) : option Qc :=
  let '(ip, n1, r1) := read_digits 0 0 s in
  let '(m, n2, r2) :=
    match r1 with
    | String "." r => let '(m, n2, r2) := read_digits ip 0 r in (m, n2, r2)
    | _ => (ip, 0%nat, r1)
    end in
  if (n1 + n2 =? 0)%nat then None
  else Some (Z2Qc m * pow10 (read_exponent r2 - Z.of_nat n2))%Qc.

Definition parseFloat (s : string) : jsnum :=
  let t := skip_spaces s in
  let '(negative, u) :=
    match t with
    | String "-" r => (true, r)
    | String "+" r => (false, r)
    | _ => (false, t)
    end in
  let x :=
    if String.prefix "Infinity" u then PInf
    else match read_decimal u with
         | Some q => Fin q
         | None => NaN
         end in
  if negative then neg x else x.

End JS.

(** ** [Map] and [Array.prototype.sort] *)

(** A [Map] keeps its entries in insertion order; [values()] lists them in
    that order.  Keys are compared with [=] (SameValueZero). *)
Module JsMap.
Section ops.
Context {K V : Type} `{EqDecision K}.

Fixpoint get (m : list (K * V)) (k : K) : option V :=
  match m with
  | [] => None
  | (k', v) :: m' => if decide (k' = k) then Some v else get m' k
  end.

Definition has (m : list (K * V)) (k : K) : bool :=
  match get m k with
  | Some _ => true
  | None => false
  end.

(** [m.set(k, v)]: replaces the value of an existing key where it
    stands, and appends a new key at the end. *)
Fixpoint set (m : list (K * V)) (k : K) (v : V) : list (K * V) :=
  match m with
  | [] => [(k, v)]
  | (k', v') :: m' =>
      if decide (k' = k) then (k', v) :: m' else (k', v') :: set m' k v
  end.

(** Mutation, through [f], of the entry object stored under [k]. *)
Fixpoint update (m : list (K * V)) (k : K) (f : V → V) : list (K * V) :=
  match m with
  | [] => []
  | (k', v') :: m' =>
      if decide (k' = k) then (k', f v') :: m' else (k', v') :: update m' k f
  end.

Definition values (m : list (K * V)) : list V := m.*2.
Definition keys (m : list (K * V)) : list K := m.*1.
Definition size (m : list (K * V)) : nat := length m.

(** The idiom of [processSessions]: create the entry [init] under [k]
    when the key is new, then mutate the entry of [k] with [f]. *)
Definition upsert (m : list (K * V)) (k : K) (init : V) (f : V → V)
  : list (K * V) :=
  let m1 := if has m k then m else set m k init in
  update m1 k f.
End ops.
End JsMap.

(** [Array.prototype.sort(cmp)] is a stable sort (ECMAScript 2019): an
    element moves behind another one only when [cmp] is positive on them.
    It is modelled by a stable insertion sort. *)
Fixpoint sort_insert {A} (cmp : A → A → Qc) (x : A) (l : list A) : list A :=
  match l with
  | [] => [x]
  | y :: l' =>
      if bool_decide (0 < cmp x y)%Qc then y :: sort_insert cmp x l'
      else x :: l
  end.

Definition Array_sort {A} (cmp : A → A → Qc) (l : list A) : list A :=
  foldr (sort_insert cmp) [] l.

(** ** Records fetched from the backend *)

(** The [dogs] row joined to a session. *)
Record dog : Type := {
  dog_row_id : jsval;
  dog_name : jsval;
  dog_code : jsval;
}.

(** The [type] object of a session; [scent] is a text field or missing. *)
Record session_type : Type := {
  scent : option string;
}.

(** A row of [training_sessions].  [result] is a text column ([None]: null
    or missing); [conditions] and [type] are JSON objects or missing. *)
Record session : Type := {
  dog_id : jsval;
  result : option string;
  conditions : option (gmap string jsval);
  type_ : option session_type;
  dogs : option dog;
}.

(** ** Statistical helpers of the dog page *)

(** [String(result || "").toLowerCase() === "success"] *)
Definition isSuccessResult (result : option string) : bool :=
  bool_decide (JS.toLowerCase (JS.str_or result "") = "success").

(** [cond?.[key]], then [parseFloat] on a string, then [Number.isFinite]. *)
Definition getConditionValue (s : session) (key : string) : option Qc :=
  let cond := default ∅ (conditions s) in
  let v := default JUndefined (cond !! key) in
  let v := match v with JStr t => JNum (JS.parseFloat t) | _ => v end in
  match v with
  | JNum (Fin q) => Some q
  | _ => None
  end.

Record numericStats : Type := {
  mean : Qc;
  median : Qc;
  mode : Qc;
}.

(** [sorted[i]] for an index inside the array. *)
Definition at_index (l : list Qc) (i : nat) : Qc := default 0%Qc (l !! i).

(** One turn of the [forEach] that looks for the mode: the state is
    [(freq, mode, bestCount)]. *)
Definition mode_step (st : list (Qc * nat) * Qc * nat) (v : Qc)
  : list (Qc * nat) * Qc * nat :=
  let '(freq, mode, bestCount) := st in
  let c := (default 0 (JsMap.get freq v) + 1)%nat in
  let freq := JsMap.set freq v c in
  if (bestCount <? c)%nat then (freq, v, c) else (freq, mode, bestCount).

Definition computeNumericStats (values : list Qc) : option numericStats :=
  if (length values =? 0)%nat then None
  else
    let sorted := Array_sort (λ a b, a - b)%Qc values in
    let n := length sorted in
    let sum := foldl (λ acc v, acc + v)%Qc 0%Qc sorted in
    let mean := (sum / JS.nat2Qc n)%Qc in
    let median :=
      if (n mod 2 =? 1)%nat then at_index sorted ((n - 1) / 2)
      else ((at_index sorted (n / 2 - 1) + at_index sorted (n / 2)) / JS.Z2Qc 2)%Qc in
    let '(_, mode, _) := foldl mode_step ([], at_index sorted 0, 0%nat) sorted in
    Some {| mean := mean; median := median; mode := mode |}.

(** A bin under construction, and a bin as handed to the chart. *)
Record bin : Type := {
  start : jsnum;
  end_ : jsnum;
  success : nat;
  fail : nat;
}.

Record histBin : Type := {
  range : string;
  count : nat;
}.

Record distributions : Type := {
  binsSuccess : list histBin;
  binsFail : list histBin;
  statsSuccess : option numericStats;
  statsFail : option numericStats;
}.

(** [sessions.map((s) => getConditionValue(s, key)).filter((v) => v !== null)] *)
Definition conditionValues (sessions : list session) (key : string) : list Qc :=
  omap (λ s, getConditionValue s key) sessions.

(** The array index a number denotes as a property key, if any. *)
Definition array_index (idx : jsnum) : option nat :=
  match idx with
  | Fin q =>
      let z := JS.Qcfloor q in
      if bool_decide (JS.Z2Qc z = q) && (0 <=? z) then Some (Z.to_nat z) else None
  | _ => None
  end.

(** [bins[idx].field += 1]: throws when [bins[idx]] is [undefined]. *)
Definition bump (f : bin → bin) (bins : list bin) (idx : jsnum) : res (list bin) :=
  match array_index idx with
  | Some i =>
      match bins !! i with
      | Some b => Ok (<[i := f b]> bins)
      | None => TypeError
      end
  | None => TypeError
  end.

Definition add_success (b : bin) : bin :=
  {| start := start b; end_ := end_ b; success := S (success b); fail := fail b |}.

Definition add_fail (b : bin) : bin :=
  {| start := start b; end_ := end_ b; success := success b; fail := S (fail b) |}.

(** [===] on numbers. *)
Definition strict_eq (x y : jsnum) : bool :=
  match x with
  | NaN => false
  | _ => bool_decide (x = y)
  end.

Definition effective_bin_count (min max : jsnum) (binCount : Z) : Z :=
  if strict_eq min max then 1 else binCount.

Definition bin_step (min max : jsnum) (effectiveBinCount : Z) : jsnum :=
  if effectiveBinCount =? 1 then Fin 1%Qc
  else
    let d := JS.div (JS.sub max min) (Fin (JS.Z2Qc effectiveBinCount)) in
    if JS.num_truthy d then d else Fin 1%Qc.

(** [Array.from({ length: effectiveBinCount }, (_, i) => ({ ... }))] *)
Definition make_bins (min max step : jsnum) (effectiveBinCount : Z) : list bin :=
  (λ i : nat,
     {| start := JS.add min (JS.mul (Fin (JS.nat2Qc i)) step);
        end_ :=
          if Z.of_nat i =? effectiveBinCount - 1 then max
          else JS.add min (JS.mul (Fin (JS.nat2Qc (i + 1))) step);
        success := 0;
        fail := 0 |})
  <$> seq 0 (Z.to_nat effectiveBinCount).

Definition getIndex (min step : jsnum) (effectiveBinCount : Z) (v : Qc) : jsnum :=
  if effectiveBinCount =? 1 then Fin 0%Qc
  else
    let idx := JS.Math_floor (JS.div (JS.sub (Fin v) min) step) in
    JS.max2 (Fin 0%Qc) (JS.min2 (Fin (JS.Z2Qc (effectiveBinCount - 1))) idx).

Definition formatLabel (effectiveBinCount : Z) (b : bin) : string :=
  if effectiveBinCount =? 1 then JS.toFixed1 (start b)
  else JS.toFixed1 (start b) +:+ "–" +:+ JS.toFixed1 (end_ b).

(** [vals.forEach((v) => { bins[getIndex(v)].field += 1 })] *)
Definition count_into (f : bin → bin) (index : Qc → jsnum)
    (vals : list Qc) (bins : list bin) : res (list bin) :=
  foldl (λ acc v, res_bind acc (λ bs, bump f bs (index v))) (Ok bins) vals.

Definition buildConditionDistributions
    (successSessions failSessions : list session) (key : string) (binCount : Z)
  : res distributions :=
  let successVals := conditionValues successSessions key in
  let failVals := conditionValues failSessions key in
  let allVals := successVals ++ failVals in
  if (length allVals =? 0)%nat then
    Ok {| binsSuccess := []; binsFail := [];
          statsSuccess := None; statsFail := None |}
  else
    let min := JS.Math_min (Fin <$> allVals) in
    let max := JS.Math_max (Fin <$> allVals) in
    let effectiveBinCount := effective_bin_count min max binCount in
    let step := bin_step min max effectiveBinCount in
    let bins := make_bins min max step effectiveBinCount in
    let index := getIndex min step effectiveBinCount in
    res_bind (count_into add_success index successVals bins) (λ bins,
    res_bind (count_into add_fail index failVals bins) (λ bins,
      Ok {| binsSuccess :=
              (λ b, {| range := formatLabel effectiveBinCount b;
                       count := success b |}) <$> bins;
            binsFail :=
              (λ b, {| range := formatLabel effectiveBinCount b;
                       count := fail b |}) <$> bins;
            statsSuccess := computeNumericStats successVals;
            statsFail := computeNumericStats failVals |})).

(** The default argument [binCount = 6]. *)
Definition default_binCount : Z := 6.

(** ** The aggregate-statistics page ([Stats]) *)

Module Stats.

(** Entry objects of [perDogMap], and the rows of [perDogStats]
    ([{ ...d, successRate, failRate }]). *)
Module Dog.
Record entry : Type := {
  dogId : jsval;
  name : jsval;
  code : jsval;
  total : nat;
  success : nat;
  fail : nat;
}.

Record stat : Type := {
  d : entry;
  successRate : Qc;
  failRate : Qc;
}.

Definition hit (isSuccess : bool) (e : entry) : entry :=
  {| dogId := dogId e; name := name e; code := code e;
     total := S (total e);
     success := if isSuccess then S (success e) else success e;
     fail := if isSuccess then fail e else S (fail e) |}.
End Dog.

(** Entry objects of [scentMap], and the rows of [scentStats]. *)
Module Scent.
Record entry : Type := {
  scent : string;
  total : nat;
  success : nat;
  fail : nat;
}.

Record stat : Type := {
  s : entry;
  successRate : Z;
}.

Definition hit (isSuccess : bool) (e : entry) : entry :=
  {| scent := scent e;
     total := S (total e);
     success := if isSuccess then S (success e) else success e;
     fail := if isSuccess then fail e else S (fail e) |}.
End Scent.

(** Entry objects of the four [condMaps], and the points of a series. *)
Module Cond.
Record entry : Type := {
  value : Qc;
  total : nat;
  success : nat;
  fail : nat;
}.

Record point : Type := {
  e : entry;
  successRate : Z;
}.

Definition hit (isSuccess : bool) (e : entry) : entry :=
  {| value := value e;
     total := S (total e);
     success := if isSuccess then S (success e) else success e;
     fail := if isSuccess then fail e else S (fail e) |}.
End Cond.

Record condMaps : Type := {
  cm_temp : list (Qc * Cond.entry);
  cm_hum : list (Qc * Cond.entry);
  cm_press : list (Qc * Cond.entry);
  cm_wind : list (Qc * Cond.entry);
}.

(** What the [forEach] over the sessions carries from one turn to the next. *)
Record accum : Type := {
  perDogMap : list (jsval * Dog.entry);
  scentMap : list (string * Scent.entry);
  maps : condMaps;
  totalSessions : nat;
  totalSuccess : nat;
  totalFail : nat;
}.

Record kpis : Type := {
  k_totalSessions : nat;
  k_totalDogs : nat;
  k_successRate : Z;
  k_totalFails : nat;
}.

Record series : Type := {
  temp : list Cond.point;
  hum : list Cond.point;
  press : list Cond.point;
  wind : list Cond.point;
}.

(** The four pieces of state that [processSessions] sets. *)
Record state : Type := {
  globalKpis : kpis;
  perDogStats : list Dog.stat;
  scentStats : list Scent.stat;
  conditionSeries : series;
}.

(** The label under which sessions without a scent are grouped. *)
Definition unknown_scent : string := "Desconocido".

Definition unnamed_dog : string := "Perro sin nombre".

(** [Math.round((a / b) * 100)] when [b] is not zero, else 0. *)
Definition rounded_rate (a b : nat) : Z :=
  if (b =? 0)%nat then 0
  else JS.Math_round (JS.nat2Qc a / JS.nat2Qc b * JS.Z2Qc 100)%Qc.

(** [(a / b) * 100] when [b] is not zero, else 0. *)
Definition rate (a b : nat) : Qc :=
  if (b =? 0)%nat then 0%Qc
  else (JS.nat2Qc a / JS.nat2Qc b * JS.Z2Qc 100)%Qc.

(** The body of the loop over the four keys, for one key and its map. *)
Definition cond_step (cond : gmap string jsval) (isSuccess : bool)
    (key : string) (map : list (Qc * Cond.entry)) : list (Qc * Cond.entry) :=
  let v := default JUndefined (cond !! key) in
  let v := match v with JStr t => JNum (JS.parseFloat t) | _ => v end in
  match v with
  | JNum (Fin q) =>
      JsMap.upsert map q
        {| Cond.value := q; Cond.total := 0; Cond.success := 0; Cond.fail := 0 |}
        (Cond.hit isSuccess)
  | _ => map
  end.

(** One turn of [sessions.forEach]. *)
Definition session_step (a : accum) (s : session) : accum :=
  let resultStr := JS.toLowerCase (JS.str_or (result s) "") in
  let isSuccess := bool_decide (resultStr = "success") in
  let dog := dogs s in
  let dogId := JS.or_else (from_option dog_row_id JUndefined dog) (dog_id s) in
  let dogName := JS.or_else (from_option dog_name JUndefined dog) (JStr unnamed_dog) in
  let dogCode := JS.or_else (from_option dog_code JUndefined dog) (JStr "") in
  let perDogMap :=
    JsMap.upsert (perDogMap a) dogId
      {| Dog.dogId := dogId; Dog.name := dogName; Dog.code := dogCode;
         Dog.total := 0; Dog.success := 0; Dog.fail := 0 |}
      (Dog.hit isSuccess) in
  let scent := JS.str_or (from_option scent None (type_ s)) unknown_scent in
  let scentMap :=
    JsMap.upsert (scentMap a) scent
      {| Scent.scent := scent; Scent.total := 0; Scent.success := 0; Scent.fail := 0 |}
      (Scent.hit isSuccess) in
  let cond := default ∅ (conditions s) in
  let maps :=
    {| cm_temp := cond_step cond isSuccess "temp" (cm_temp (maps a));
       cm_hum := cond_step cond isSuccess "hum" (cm_hum (maps a));
       cm_press := cond_step cond isSuccess "press" (cm_press (maps a));
       cm_wind := cond_step cond isSuccess "wind" (cm_wind (maps a)) |} in
  {| perDogMap := perDogMap;
     scentMap := scentMap;
     maps := maps;
     totalSessions := S (totalSessions a);
     totalSuccess := if isSuccess then S (totalSuccess a) else totalSuccess a;
     totalFail := if isSuccess then totalFail a else S (totalFail a) |}.

Definition empty_accum : accum :=
  {| perDogMap := []; scentMap := [];
     maps := {| cm_temp := []; cm_hum := []; cm_press := []; cm_wind := [] |};
     totalSessions := 0; totalSuccess := 0; totalFail := 0 |}.

Definition buildSeries (map : list (Qc * Cond.entry)) : list Cond.point :=
  let arr :=
    (λ e, {| Cond.e := e;
             Cond.successRate := rounded_rate (Cond.success e) (Cond.total e) |})
    <$> JsMap.values map in
  Array_sort (λ a b, Cond.value (Cond.e a) - Cond.value (Cond.e b))%Qc arr.

Definition processSessions (sessions : list session) : state :=
  if (length sessions =? 0)%nat then
    {| globalKpis :=
         {| k_totalSessions := 0; k_totalDogs := 0;
            k_successRate := 0; k_totalFails := 0 |};
       perDogStats := [];
       scentStats := [];
       conditionSeries := {| temp := []; hum := []; press := []; wind := [] |} |}
  else
    let a := foldl session_step empty_accum sessions in
    {| globalKpis :=
         {| k_totalSessions := totalSessions a;
            k_totalDogs := JsMap.size (perDogMap a);
            k_successRate := rounded_rate (totalSuccess a) (totalSessions a);
            k_totalFails := totalFail a |};
       perDogStats :=
         (λ d, {| Dog.d := d;
                  Dog.successRate := rate (Dog.success d) (Dog.total d);
                  Dog.failRate := rate (Dog.fail d) (Dog.total d) |})
         <$> JsMap.values (perDogMap a);
       scentStats :=
         (λ s, {| Scent.s := s;
                  Scent.successRate :=
                    rounded_rate (Scent.success s) (Scent.total s) |})
         <$> JsMap.values (scentMap a);
       conditionSeries :=
         {| temp := buildSeries (cm_temp (maps a));
            hum := buildSeries (cm_hum (maps a));
            press := buildSeries (cm_press (maps a));
            wind := buildSeries (cm_wind (maps a)) |} |}.

(** [conditionSeries[key] || []] *)
Definition series_of (cs : series) (key : string) : list Cond.point :=
  if bool_decide (key = "temp") then temp cs
  else if bool_decide (key = "hum") then hum cs
  else if bool_decide (key = "press") then press cs
  else if bool_decide (key = "wind") then wind cs
  else [].

(** *** Rankings of the dogs *)

(** [d[key]] for the four keys the rankings sort by. *)
Inductive sortKey : Type := KSuccess | KSuccessRate | KFail | KFailRate.

Definition field (k : sortKey) (x : Dog.stat) : Qc :=
  match k with
  | KSuccess => JS.nat2Qc (Dog.success (Dog.d x))
  | KSuccessRate => Dog.successRate x
  | KFail => JS.nat2Qc (Dog.fail (Dog.d x))
  | KFailRate => Dog.failRate x
  end.

Definition sortKeySuccess (dogTableMode : string) : sortKey :=
  if bool_decide (dogTableMode = "absolute") then KSuccess else KSuccessRate.

Definition sortKeyFail (dogTableMode : string) : sortKey :=
  if bool_decide (dogTableMode = "absolute") then KFail else KFailRate.

(** [[...perDogStats].sort((a, b) => b[key] - a[key])] *)
Definition ranking (key : sortKey) (perDogStats : list Dog.stat) : list Dog.stat :=
  if (length perDogStats =? 0)%nat then []
  else Array_sort (λ a b, field key b - field key a)%Qc perDogStats.

Definition successRanking (dogTableMode : string) (perDogStats : list Dog.stat) :=
  ranking (sortKeySuccess dogTableMode) perDogStats.

Definition failRanking (dogTableMode : string) (perDogStats : list Dog.stat) :=
  ranking (sortKeyFail dogTableMode) perDogStats.

End Stats.

(** ** Values derived by the dog page ([RecordDetail]) *)

Module RecordDetail.

(** [sessions.filter((s) => isSuccessResult(s.result))] and its complement. *)
Definition successSessions (sessions : list session) : list session :=
  filter (λ s, isSuccessResult (result s) = true) sessions.

Definition failSessions (sessions : list session) : list session :=
  filter (λ s, negb (isSuccessResult (result s)) = true) sessions.

Definition totalSessions (sessions : list session) : nat := length sessions.

(** [totalSessions ? (successSessions.length / totalSessions) * 100 : 0] *)
Definition successRate (sessions : list session) : Qc :=
  if (totalSessions sessions =? 0)%nat then 0%Qc
  else (JS.nat2Qc (length (successSessions sessions))
        / JS.nat2Qc (totalSessions sessions) * JS.Z2Qc 100)%Qc.

(** [totalSessions ? 100 - successRate : 0] *)
Definition failRate (sessions : list session) : Qc :=
  if (totalSessions sessions =? 0)%nat then 0%Qc
  else (JS.Z2Qc 100 - successRate sessions)%Qc.




End RecordDetail.

(** ** Summaries under the rankings of the statistics page *)

(** [successRanking.map((d) => dogTableMode === "absolute" ? d.success : d.successRate)] *)
Definition successValuesForStats (dogTableMode : string)
    (perDogStats : list Stats.Dog.stat) : list Qc :=
  (λ d, if bool_decide (dogTableMode = "absolute")
        then JS.nat2Qc (Stats.Dog.success (Stats.Dog.d d))
        else Stats.Dog.successRate d)
  <$> Stats.successRanking dogTableMode perDogStats.

Definition failValuesForStats (dogTableMode : string)
    (perDogStats : list Stats.Dog.stat) : list Qc :=
  (λ d, if bool_decide (dogTableMode = "absolute")
        then JS.nat2Qc (Stats.Dog.fail (Stats.Dog.d d))
        else Stats.Dog.failRate d)
  <$> Stats.failRanking dogTableMode perDogStats.

Definition successStatsGlobal (dogTableMode : string)
    (perDogStats : list Stats.Dog.stat) : option numericStats :=
  computeNumericStats (successValuesForStats dogTableMode perDogStats).

Definition failStatsGlobal (dogTableMode : string)
    (perDogStats : list Stats.Dog.stat) : option numericStats :=
  computeNumericStats (failValuesForStats dogTableMode perDogStats).

(** ** Route guards ([RequireAuth], [RequireAdmin]) *)

Module Auth.

(** A row of [profiles]. *)
Record profile : Type := {
  role : option string;
  full_name : option string;
}.

(** The value of the auth context: the signed-in user (its id), the
    profile loaded for it, and whether the session is still being read. *)
Record context : Type := {
  user : option string;
  user_profile : option profile;
  loading : bool;
}.

(** What a guard renders. *)
Inductive view : Type :=
  | LoadingSession
  | LoginPrompt
  | Restricted
  | Children.

Definition RequireAuth (c : context) : view :=
  if loading c then LoadingSession
  else match user c with
       | None => LoginPrompt
       | Some _ => Children
       end.

(** [profile?.role === "admin"] *)
Definition isAdmin (c : context) : bool :=
  bool_decide (from_option role None (user_profile c) = Some "admin").

Definition RequireAdmin (c : context) : view :=
  if loading c then LoadingSession
  else match user c with
       | None => LoginPrompt
       | Some _ => if isAdmin c then Children else Restricted
       end.

End Auth.

(** ** The form for a new dog ([NewDog]) *)

Module NewDog.










End NewDog.

(** * Notions used to state the properties *)

(** ** Texts up to letter case *)

(** Equality of texts up to the case of the letters A to Z, stated without
    reference to [toLowerCase]. *)
Definition is_upper (c : ascii) : Prop :=
  (65 ≤ nat_of_ascii c ≤ 90)%nat.

Inductive ci_char : ascii → ascii → Prop :=
  | ci_same c : ci_char c c
  | ci_up c : is_upper c → ci_char c (ascii_of_nat (nat_of_ascii c + 32))
  | ci_down c : is_upper c → ci_char (ascii_of_nat (nat_of_ascii c + 32)) c.

Inductive ci_eq : string → string → Prop :=
  | ci_nil : ci_eq "" ""
  | ci_cons a b s t : ci_char a b → ci_eq s t → ci_eq (String a s) (String b t).

(** ** Decimal numerals *)

(** The number a string of decimal digits denotes, continuing from [a]. *)
Fixpoint digits_value (a : Z) (s : string) : Z :=
  match s with
  | EmptyString => a
  | String c r => digits_value (10 * a + JS.digit_val c) r
  end.

(** ** Sorted arrays and summaries *)

(** Ascending order of a key. *)
Definition by_key {A} (k : A → Qc) (a b : A) : Prop := (k a ≤ k b)%Qc.

(** Sum of the values, in the order given. *)
Definition Qcsum (l : list Qc) : Qc := foldr Qcplus 0%Qc l.

(** Number of occurrences of [v] in [l]. *)
Definition occurrences (v : Qc) (l : list Qc) : nat :=
  length (filter (λ x, x = v) l).

(** [[...values].sort((a, b) => a - b)] *)
Definition sorted_values (values : list Qc) : list Qc :=
  Array_sort (λ a b, a - b)%Qc values.

(** What the loop for the mode has established after an ascending prefix
    [l] of the sorted array. *)
Definition mode_inv (l : list Qc) (st : list (Qc * nat) * Qc * nat) : Prop :=
  let '(freq, mode, bestCount) := st in
  (∀ v, default 0%nat (JsMap.get freq v) = occurrences v l) ∧
  (∀ v, (occurrences v l ≤ bestCount)%nat) ∧
  (l = [] → bestCount = 0%nat) ∧
  (l ≠ [] →
     mode ∈ l ∧ occurrences mode l = bestCount ∧
     ∀ v, occurrences v l = bestCount → (mode ≤ v)%Qc).

(** [a] is met before [b] in [l]. *)
Definition before {A} (a b : A) (l : list A) : Prop := [a; b] `sublist_of` l.

(** Least and greatest value of a list. *)
Definition is_min (lo : Qc) (l : list Qc) : Prop :=
  lo ∈ l ∧ ∀ v, v ∈ l → (lo ≤ v)%Qc.

Definition is_max (hi : Qc) (l : list Qc) : Prop :=
  hi ∈ l ∧ ∀ v, v ∈ l → (v ≤ hi)%Qc.

(** ** The histogram as the specification describes it

    [n] equal-width bins over [[lo, hi]]; a value goes to the bin whose
    index is the floor of its distance to [lo] counted in widths, clamped
    into [[0, n - 1]]. *)

Section histogram_spec.
Variables (lo hi : Qc) (n : Z).

Definition bin_width : Qc := ((hi - lo) / JS.Z2Qc n)%Qc.

Definition bin_start (i : nat) : Qc := (lo + JS.nat2Qc i * bin_width)%Qc.

Definition bin_end (i : nat) : Qc :=
  if Z.of_nat i =? n - 1 then hi else bin_start (i + 1).

Definition bin_index (v : Qc) : nat :=
  Z.to_nat (Z.max 0 (Z.min (n - 1) (JS.Qcfloor ((v - lo) / bin_width)%Qc))).

Definition bin_label (i : nat) : string :=
  if n =? 1 then JS.toFixed1 (Fin (bin_start i))
  else JS.toFixed1 (Fin (bin_start i)) +:+ "–" +:+ JS.toFixed1 (Fin (bin_end i)).

Definition histogram (vals : list Qc) : list histBin :=
  (λ i, {| range := bin_label i;
           count := length (filter (λ v, bin_index v = i) vals) |})
  <$> seq 0 (Z.to_nat n).
End histogram_spec.

(** ** Grouping sessions in a [Map] *)

(** The pattern shared by [scentMap] and the four [condMaps]: a session
    with key [k] creates the entry [init k] when [k] is new, and then
    mutates the entry of [k] with [hit]. *)
Section grouping.
Context {X K V : Type} `{EqDecision K}.
Variables (keyOf : X → option K) (init : K → V) (hit : X → V → V).

Definition group_step (m : list (K * V)) (x : X) : list (K * V) :=
  match keyOf x with
  | Some k => JsMap.upsert m k (init k) (hit x)
  | None => m
  end.

(** The sessions of key [k], in the order met. *)
Definition members (k : K) (xs : list X) : list X :=
  filter (λ x, keyOf x = Some k) xs.
End grouping.

(** ** The aggregate-statistics page *)

(** The scent label of a session as the specification has it: the text of
    [type.scent], or the fixed label when there is none. *)
Definition scent_label (s : session) : string :=
  match type_ s with
  | Some t =>
      match scent t with
      | Some l => if decide (l = "") then Stats.unknown_scent else l
      | None => Stats.unknown_scent
      end
  | None => Stats.unknown_scent
  end.

(** The session is classified as a success. *)
Definition is_success (s : session) : Prop := isSuccessResult (result s) = true.

(** The entry created for a new scent, and its mutation by a session. *)
Definition scent_init (k : string) : Stats.Scent.entry :=
  {| Stats.Scent.scent := k; Stats.Scent.total := 0;
     Stats.Scent.success := 0; Stats.Scent.fail := 0 |}.

Definition scent_hit (s : session) : Stats.Scent.entry → Stats.Scent.entry :=
  Stats.Scent.hit (isSuccessResult (result s)).

(** The entry created for a new value of a condition, and its mutation. *)
Definition cond_init (q : Qc) : Stats.Cond.entry :=
  {| Stats.Cond.value := q; Stats.Cond.total := 0;
     Stats.Cond.success := 0; Stats.Cond.fail := 0 |}.

Definition cond_hit (s : session) : Stats.Cond.entry → Stats.Cond.entry :=
  Stats.Cond.hit (isSuccessResult (result s)).

(** [condMaps[key]] *)
Definition cond_map_of (key : string) (cm : Stats.condMaps) : list (Qc * Stats.Cond.entry) :=
  if bool_decide (key = "temp") then Stats.cm_temp cm
  else if bool_decide (key = "hum") then Stats.cm_hum cm
  else if bool_decide (key = "press") then Stats.cm_press cm
  else if bool_decide (key = "wind") then Stats.cm_wind cm
  else [].

(** The keys the aggregator reads. *)
Definition recognized_keys : list string := ["temp"; "hum"; "press"; "wind"].

(** [Math.round] gives the nearest integer, the upper one on a tie. *)
Definition nearest_integer (q : Qc) (r : Z) : Prop :=
  (JS.Z2Qc r ≤ q + 1 / 2)%Qc ∧ (q + 1 / 2 < JS.Z2Qc (r + 1))%Qc.

(** The point [buildSeries] makes of an entry, and the value it stands at. *)
Definition cond_point (e : Stats.Cond.entry) : Stats.Cond.point :=
  {| Stats.Cond.e := e;
     Stats.Cond.successRate :=
       Stats.rounded_rate (Stats.Cond.success e) (Stats.Cond.total e) |}.

Definition point_value (p : Stats.Cond.point) : Qc := Stats.Cond.value (Stats.Cond.e p).




(** ** Concrete inputs *)

(** The two bin sequences of a result, when there is one. *)
Definition bins_of (r : res distributions) : option (list histBin * list histBin) :=
  match r with
  | Ok d => Some (binsSuccess d, binsFail d)
  | TypeError => None
  end.

(** A session whose only content is the reading [v] of the condition [key]. *)
Definition reading (key : string) (v : jsval) : session :=
  {| dog_id := JNull; result := None;
     conditions := Some {[ key := v ]}; type_ := None; dogs := None |}.

Definition num (z : Z) : jsval := JNum (Fin (JS.Z2Qc z)).

(** Success cohort with the temperatures 0 and 10, fail cohort with 5. *)
Definition cohort_a : list session :=
  [reading "temp" (num 0); reading "temp" (num 10)].

Definition cohort_b : list session := [reading "temp" (num 5)].


(** Sessions with a result and a scent, and nothing else. *)
Definition scented (r : string) (sc : option string) : session :=
  {| dog_id := num 1; result := Some r; conditions := None;
     type_ := Some {| scent := sc |}; dogs := None |}.

Definition scent_sessions : list session :=
  [scented "success" (Some "tnt"); scented "fail" None;
   scented "SUCCESS" (Some ""); scented "fail" (Some "tnt")].

(** Sessions with a result, a temperature and an altitude (a condition the
    aggregator does not know). *)
Definition measured (r : string) (t : jsval) : session :=
  {| dog_id := num 1; result := Some r;
     conditions := Some {[ "temp" := t; "altitude" := num 900 ]};
     type_ := None; dogs := None |}.

Definition measured_sessions : list session :=
  [measured "success" (num 20); measured "fail" (JStr "15.5");
   measured "success" (JStr "abc"); measured "fail" (num 20);
   measured "success" (num 3)].

(** The row of [perDogStats] of a dog with the given successes and failures. *)
Definition dog_stat (id : Z) (succ fl : nat) : Stats.Dog.stat :=
  {| Stats.Dog.d :=
       {| Stats.Dog.dogId := num id; Stats.Dog.name := JStr "dog";
          Stats.Dog.code := JStr ""; Stats.Dog.total := succ + fl;
          Stats.Dog.success := succ; Stats.Dog.fail := fl |};
     Stats.Dog.successRate := Stats.rate succ (succ + fl);
     Stats.Dog.failRate := Stats.rate fl (succ + fl) |}.

(** ** Notions for the rest of the code *)

(** The result of the binner with the two cohorts exchanged. *)
Definition swap_cohorts (r : res distributions) : res distributions :=
  match r with
  | Ok d =>
      Ok {| binsSuccess := binsFail d; binsFail := binsSuccess d;
            statsSuccess := statsFail d; statsFail := statsSuccess d |}
  | TypeError => TypeError
  end.

(** The values of a condition over the two cohorts together. *)
Definition all_values (ss fs : list session) (key : string) : list Qc :=
  conditionValues ss key ++ conditionValues fs key.

(** The pattern of [perDogMap]: every session has a key, and the entry
    created for a new key is made from the session that brings it. *)
Section grouping_by_first.
Context {X K V : Type} `{EqDecision K}.
Variables (keyOf : X → K) (init : X → V) (hit : X → V → V).

Definition group_step_first (m : list (K * V)) (x : X) : list (K * V) :=
  JsMap.upsert m (keyOf x) (init x) (hit x).
End grouping_by_first.

(** The key under which a session is counted in [perDogMap]:
    [dog?.id || s.dog_id]. *)
Definition dog_key (s : session) : jsval :=
  JS.or_else (from_option dog_row_id JUndefined (dogs s)) (dog_id s).

(** The name and the code a session gives to a new entry of [perDogMap]. *)
Definition dog_label (s : session) : jsval :=
  JS.or_else (from_option dog_name JUndefined (dogs s)) (JStr Stats.unnamed_dog).

Definition dog_code_of (s : session) : jsval :=
  JS.or_else (from_option dog_code JUndefined (dogs s)) (JStr "").

Definition dog_init (s : session) : Stats.Dog.entry :=
  {| Stats.Dog.dogId := dog_key s; Stats.Dog.name := dog_label s;
     Stats.Dog.code := dog_code_of s; Stats.Dog.total := 0;
     Stats.Dog.success := 0; Stats.Dog.fail := 0 |}.

Definition dog_hit (s : session) : Stats.Dog.entry → Stats.Dog.entry :=
  Stats.Dog.hit (isSuccessResult (result s)).

(** The row of [perDogStats] made of an entry. *)
Definition dog_row (e : Stats.Dog.entry) : Stats.Dog.stat :=
  {| Stats.Dog.d := e;
     Stats.Dog.successRate := Stats.rate (Stats.Dog.success e) (Stats.Dog.total e);
     Stats.Dog.failRate := Stats.rate (Stats.Dog.fail e) (Stats.Dog.total e) |}.


(** A session of a dog, with a result and the joined row of the dog. *)
Definition dog_session (id : Z) (nm : string) (r : string) : session :=
  {| dog_id := num id; result := Some r; conditions := None; type_ := None;
     dogs := Some {| dog_row_id := num id; dog_name := JStr nm;
                     dog_code := JStr "K9" |} |}.

(** ** Texts and white space *)

(** The text consists of white space only (the empty text included). *)
Fixpoint blank (s : string) : bool :=
  match s with
  | EmptyString => true
  | String c r => JS.is_space c && blank r
  end.









(** The distinct elements of a list, each at its first occurrence. *)
Definition first_occurrences {A} `{EqDecision A} (l : list A) : list A :=
  reverse (remove_dups (reverse l)).

(** * Properties *)

(** Proof steps that compute: bounds of a character code, and closed
    decidable statements. *)
Ltac upper_tac :=
  unfold is_upper;
  match goal with
  | |- context [nat_of_ascii ?c] =>
      let n := eval vm_compute in (nat_of_ascii c) in
      change (nat_of_ascii c) with n; lia
  end.

Ltac by_computation :=
  lazymatch goal with
  | |- ?P => apply (bool_decide_eq_true_1 P); vm_compute; reflexivity
  end.

(** ** The record classifier *)

Lemma lower_ascii_ci c : ci_char c (JS.lower_ascii c).
Proof.
  destruct c as [[] [] [] [] [] [] [] []];
    lazymatch goal with
    | |- ci_char ?c _ =>
        first [ exact (ci_same c)
              | exact (ci_up c ltac:(upper_tac)) ]
    end.
Qed.

Lemma ci_char_lower a b : ci_char a b → JS.lower_ascii a = JS.lower_ascii b.
Proof.
  intros [c|c Hc|c Hc]; [done| |];
    destruct c as [[] [] [] [] [] [] [] []]; try reflexivity;
    exfalso; revert Hc; clear; upper_tac.
Qed.

Lemma toLowerCase_ci s : ci_eq s (JS.toLowerCase s).
Proof.
  induction s as [|c s IH]; simpl; constructor; auto using lower_ascii_ci.
Qed.

Lemma ci_eq_toLowerCase s t : ci_eq s t → JS.toLowerCase s = JS.toLowerCase t.
Proof.
  induction 1 as [|a b s t Hab _ IH]; simpl; [done|].
  by rewrite (ci_char_lower _ _ Hab), IH.
Qed.

Lemma str_or_empty r : JS.str_or r "" = default "" r.
Proof. destruct r as [s|]; simpl; [|done]. by case_bool_decide. Qed.

(** C4. The classifier is a total function on texts (missing ones
    included) that answers success exactly on the texts equal to "success"
    up to letter case; nothing is trimmed, so "success " is a failure, as
    are the empty and the missing text. *)
Theorem isSuccessResult_case_insensitive :
  (∀ r : option string,
     isSuccessResult r = true ↔ ∃ s, r = Some s ∧ ci_eq s "success") ∧
  (∀ r : option string,
     isSuccessResult r = false ↔ ¬ ∃ s, r = Some s ∧ ci_eq s "success") ∧
  isSuccessResult (Some "SUCCESS") = true ∧
  isSuccessResult (Some "Success") = true ∧
  isSuccessResult (Some "success") = true ∧
  isSuccessResult (Some "success ") = false ∧
  isSuccessResult (Some " success") = false ∧
  isSuccessResult (Some "") = false ∧
  isSuccessResult None = false.
Proof.
  assert (Hiff : ∀ r : option string,
    isSuccessResult r = true ↔ ∃ s, r = Some s ∧ ci_eq s "success").
  { intros r. unfold isSuccessResult. rewrite bool_decide_eq_true, str_or_empty.
    split.
    - intros H. destruct r as [s|]; simpl in H; [|discriminate].
      exists s. split; [done|]. rewrite <- H. apply toLowerCase_ci.
    - intros (s & -> & Hs). simpl. by rewrite (ci_eq_toLowerCase _ _ Hs). }
  split; [exact Hiff|]. split; [|by vm_compute].
  intros r. rewrite <- Hiff. by destruct (isSuccessResult r).
Qed.

(** ** Facts about the model of [Map] *)

Section jsmap_facts.
Context {K V : Type} `{EqDecision K}.
Implicit Types (m : list (K * V)) (k : K) (v : V).

Lemma get_set m k v k' :
  JsMap.get (JsMap.set m k v) k' = if decide (k = k') then Some v else JsMap.get m k'.
Proof.
  induction m as [|[k0 v0] m IH]; simpl.
  - repeat case_decide; congruence.
  - destruct (decide (k0 = k)) as [->|Hne]; simpl.
    + repeat case_decide; congruence.
    + rewrite IH. repeat case_decide; congruence.
Qed.

Lemma get_update m k f k' :
  JsMap.get (JsMap.update m k f) k' =
  if decide (k = k') then f <$> JsMap.get m k else JsMap.get m k'.
Proof.
  induction m as [|[k0 v0] m IH]; simpl.
  - by case_decide.
  - destruct (decide (k0 = k)) as [->|Hne]; simpl.
    + repeat case_decide; simpl; congruence.
    + rewrite IH. repeat case_decide; simpl; congruence.
Qed.

Lemma keys_update m k f : JsMap.keys (JsMap.update m k f) = JsMap.keys m.
Proof.
  unfold JsMap.keys. induction m as [|[k0 v0] m IH]; csimpl; [done|].
  case_decide; csimpl; [done|]. by rewrite IH.
Qed.

Lemma get_None_keys m k : JsMap.get m k = None ↔ k ∉ JsMap.keys m.
Proof.
  unfold JsMap.keys. induction m as [|[k0 v0] m IH]; csimpl.
  - split; [intros _; apply not_elem_of_nil | done].
  - rewrite not_elem_of_cons. case_decide; subst.
    + split; [done | intros [? _]; done].
    + rewrite IH. split; [by intros ? | by intros [_ ?]].
Qed.

Lemma keys_set_new m k v :
  JsMap.get m k = None → JsMap.keys (JsMap.set m k v) = JsMap.keys m ++ [k].
Proof.
  unfold JsMap.keys. induction m as [|[k0 v0] m IH]; csimpl; [done|].
  case_decide; [done|]. intros Hm. csimpl. by rewrite IH.
Qed.

Lemma get_upsert m k init f k' :
  JsMap.get (JsMap.upsert m k init f) k' =
  if decide (k = k') then Some (f (default init (JsMap.get m k)))
  else JsMap.get m k'.
Proof.
  unfold JsMap.upsert, JsMap.has. rewrite get_update.
  destruct (JsMap.get m k) as [v|] eqn:Hk; simpl.
  - rewrite Hk. done.
  - rewrite !get_set. repeat case_decide; try done.
Qed.

Lemma keys_upsert m k init f :
  JsMap.keys (JsMap.upsert m k init f) =
  if JsMap.has m k then JsMap.keys m else JsMap.keys m ++ [k].
Proof.
  unfold JsMap.upsert, JsMap.has. rewrite keys_update.
  destruct (JsMap.get m k) eqn:Hk; [done|]. by apply keys_set_new.
Qed.

Lemma elem_of_values m v :
  NoDup (JsMap.keys m) →
  v ∈ JsMap.values m ↔ ∃ k, JsMap.get m k = Some v.
Proof.
  unfold JsMap.keys, JsMap.values. induction m as [|[k0 v0] m IH]; csimpl.
  - intros _. split; [by intros ?%elem_of_nil | by intros [? ?]].
  - intros [Hk0 Hnd]%NoDup_cons. rewrite elem_of_cons, (IH Hnd).
    split.
    + intros [->|[k Hk]].
      * exists k0. by rewrite decide_True.
      * exists k. rewrite decide_False; [done|]. intros ->.
        apply get_None_keys in Hk0. unfold JsMap.keys in Hk0. congruence.
    + intros [k Hk]. case_decide; [left; congruence | right; eauto].
Qed.
End jsmap_facts.

(** ** Facts about the model of [sort] *)

Section sort_facts.
Context {A : Type} (cmp : A → A → Qc) (k : A → Qc).
(** The comparator orders by the key [k]. *)
Hypothesis cmp_key : ∀ a b, (0 < cmp a b)%Qc ↔ (k b < k a)%Qc.

Lemma sort_insert_perm x l : sort_insert cmp x l ≡ₚ x :: l.
Proof.
  induction l as [|y l IH]; simpl; [done|].
  case_bool_decide; [|done]. rewrite IH. apply Permutation_swap.
Qed.

Lemma Array_sort_perm l : Array_sort cmp l ≡ₚ l.
Proof.
  induction l as [|x l IH]; simpl; [done|].
  by rewrite sort_insert_perm, IH.
Qed.

Lemma sort_insert_sorted x l :
  StronglySorted (by_key k) l → StronglySorted (by_key k) (sort_insert cmp x l).
Proof.
  induction 1 as [|y l Hl IH Hy]; simpl.
  - repeat constructor.
  - case_bool_decide as Hc.
    + constructor; [done|]. rewrite sort_insert_perm. constructor; [|done].
      apply Qclt_le_weak. by apply cmp_key.
    + assert (k x ≤ k y)%Qc as Hxy.
      { apply Qcnot_lt_le. by rewrite <- cmp_key. }
      constructor; [by constructor|]. constructor; [done|].
      eapply Forall_impl; [exact Hy|]. intros z Hz.
      unfold by_key in *. by eapply Qcle_trans.
Qed.

Lemma Array_sort_sorted l : StronglySorted (by_key k) (Array_sort cmp l).
Proof.
  induction l as [|x l IH]; simpl; [constructor|].
  by apply sort_insert_sorted.
Qed.

End sort_facts.

(** Stability: where the comparator is positive only between elements of
    different keys, the elements of one key keep their order. *)
Section sort_stable.
Context {A : Type} (cmp : A → A → Qc) (k : A → Qc).
Hypothesis cmp_pos_ne : ∀ a b, (0 < cmp a b)%Qc → k a ≠ k b.

Lemma sort_insert_filter c x l :
  filter (λ a, k a = c) (sort_insert cmp x l) = filter (λ a, k a = c) (x :: l).
Proof.
  induction l as [|y l IH]; simpl; [done|].
  case_bool_decide as Hc; [|done].
  apply cmp_pos_ne in Hc. rewrite filter_cons, IH, !filter_cons.
  repeat case_decide; congruence.
Qed.

Lemma Array_sort_stable c l :
  filter (λ a, k a = c) (Array_sort cmp l) = filter (λ a, k a = c) l.
Proof.
  induction l as [|x l IH]; simpl; [done|].
  by rewrite sort_insert_filter, !filter_cons, IH.
Qed.
End sort_stable.

Lemma Qc_cmp_minus (a b : Qc) : (0 < a - b)%Qc ↔ (b < a)%Qc.
Proof. symmetry. apply Qclt_minus_iff. Qed.

(** ** The numeric summary *)

Lemma foldl_plus_sum (a : Qc) l :
  foldl (λ acc v, acc + v)%Qc a l = (a + Qcsum l)%Qc.
Proof.
  revert a. induction l as [|x l IH]; intros a; simpl.
  - by rewrite Qcplus_0_r.
  - rewrite IH. ring.
Qed.

Lemma Qcsum_perm l1 l2 : l1 ≡ₚ l2 → Qcsum l1 = Qcsum l2.
Proof.
  induction 1 as [|x l1 l2 _ IH|x y l|l1 l2 l3 _ IH1 _ IH2]; simpl.
  - done.
  - by rewrite IH.
  - ring.
  - congruence.
Qed.

Lemma occurrences_perm v l1 l2 : l1 ≡ₚ l2 → occurrences v l1 = occurrences v l2.
Proof. intros Hp. unfold occurrences. by rewrite Hp. Qed.

Lemma occurrences_snoc v l x :
  occurrences v (l ++ [x]) =
  (occurrences v l + if decide (x = v) then 1 else 0)%nat.
Proof.
  unfold occurrences. rewrite filter_app, length_app, filter_cons.
  by case_decide.
Qed.

Lemma sorted_values_sorted values : StronglySorted Qcle (sorted_values values).
Proof. apply (Array_sort_sorted _ id). intros a b. apply Qc_cmp_minus. Qed.

Lemma sorted_values_perm values : sorted_values values ≡ₚ values.
Proof. apply Array_sort_perm. Qed.

Lemma sorted_values_unique values l :
  Sorted Qcle l → l ≡ₚ values → l = sorted_values values.
Proof.
  intros Hs Hp. apply (Sorted_unique Qcle); [done| |].
  - apply StronglySorted_Sorted, sorted_values_sorted.
  - by rewrite sorted_values_perm.
Qed.

Lemma at_index_lookup (l : list Qc) i :
  (i < length l)%nat → l !! i = Some (at_index l i).
Proof.
  intros Hi. unfold at_index.
  destruct (lookup_lt_is_Some_2 l i Hi) as [x ->]. done.
Qed.

Lemma mode_loop (m0 : Qc) (l : list Qc) :
  StronglySorted Qcle l →
  mode_inv l (foldl mode_step ([], m0, 0%nat) l).
Proof.
  induction l as [|x l IH] using rev_ind; intros Hs.
  - simpl. repeat split; done.
  - apply StronglySorted_app in Hs as (Hlx & Hl & _).
    specialize (IH Hl). rewrite foldl_app. simpl.
    destruct (foldl mode_step ([], m0, 0%nat) l) as [[freq mode] best].
    destruct IH as (Hfreq & Hmax & Hnil & Hmode).
    assert (Hx : ∀ y, y ∈ l → (y ≤ x)%Qc).
    { intros y Hy. apply Hlx; [done|]. by apply list_elem_of_singleton. }
    unfold mode_step. rewrite Hfreq.
    assert (Hfreq' : ∀ v,
      default 0%nat (JsMap.get (JsMap.set freq x (occurrences x l + 1)%nat) v)
      = occurrences v (l ++ [x])).
    { intros v. rewrite get_set, occurrences_snoc.
      case_decide; subst; simpl; [done|]. rewrite Hfreq. lia. }
    assert (Hne : l ++ [x] ≠ []) by (by destruct l).
    destruct (Nat.ltb_spec best (occurrences x l + 1)) as [Hlt|Hge].
    + split; [done|]. split; [|split; [done|]].
      * intros v. rewrite occurrences_snoc. specialize (Hmax v).
        case_decide; subst; lia.
      * intros _. split; [|split].
        -- apply elem_of_app. right. by apply list_elem_of_singleton.
        -- rewrite occurrences_snoc, decide_True; done.
        -- intros v. rewrite occurrences_snoc. specialize (Hmax v).
           case_decide; subst; [intros _; apply Qcle_refl | lia].
    + assert (Hl0 : l ≠ []).
      { intros ->. specialize (Hnil eq_refl). lia. }
      destruct (Hmode Hl0) as (Hin & Hocc & Hleast).
      assert (Hmx : x ≠ mode) by (intros ->; lia).
      split; [done|]. split; [|split; [done|]].
      * intros v. rewrite occurrences_snoc. specialize (Hmax v).
        case_decide; subst; lia.
      * intros _. split; [|split].
        -- apply elem_of_app. by left.
        -- rewrite occurrences_snoc, decide_False; [lia|done].
        -- intros v. rewrite occurrences_snoc.
           case_decide; subst; [intros _; by apply Hx|].
           intros Hv. apply Hleast. lia.
Qed.

Lemma computeNumericStats_unfold values :
  values ≠ [] →
  computeNumericStats values =
  let sorted := sorted_values values in
  let n := length sorted in
  Some {| mean := (foldl (λ acc v, acc + v)%Qc 0%Qc sorted / JS.nat2Qc n)%Qc;
          median :=
            if (n mod 2 =? 1)%nat then at_index sorted ((n - 1) / 2)
            else ((at_index sorted (n / 2 - 1) + at_index sorted (n / 2))
                  / JS.Z2Qc 2)%Qc;
          mode := (foldl mode_step ([], at_index sorted 0, 0%nat) sorted).1.2 |}.
Proof.
  intros Hne. unfold computeNumericStats.
  destruct values as [|x values]; [done|].
  change (length (x :: values) =? 0)%nat with false. cbv beta iota zeta.
  fold (sorted_values (x :: values)).
  by destruct (foldl mode_step _ _) as [[? ?] ?].
Qed.

(** C2. On a non-empty collection the summary exists; its mean is the sum
    of the values (in the order given) divided by their number, and its
    median is the middle element of the values sorted in ascending order
    when their number is odd, and the mean of the two middle elements when
    it is even. *)
Theorem numeric_summary_mean_median (values : list Qc) :
  values ≠ [] →
  ∃ st, computeNumericStats values = Some st ∧
    mean st = (Qcsum values / JS.nat2Qc (length values))%Qc ∧
    ∀ sorted, Sorted Qcle sorted → sorted ≡ₚ values →
      let n := length values in
      ((n mod 2)%nat = 1%nat → sorted !! ((n - 1) / 2)%nat = Some (median st)) ∧
      ((n mod 2)%nat = 0%nat →
         ∃ a b, sorted !! (n / 2 - 1)%nat = Some a ∧
                sorted !! (n / 2)%nat = Some b ∧
                median st = ((a + b) / JS.Z2Qc 2)%Qc).
Proof.
  intros Hne. rewrite (computeNumericStats_unfold _ Hne). cbv zeta.
  eexists. split; [done|]. cbn [mean median].
  pose proof (sorted_values_perm values) as Hp.
  assert (Hlen : length (sorted_values values) = length values) by (by rewrite Hp).
  assert (Hpos : (0 < length values)%nat) by (destruct values; [done|simpl; lia]).
  rewrite Hlen. split.
  - by rewrite foldl_plus_sum, Qcplus_0_l, (Qcsum_perm _ _ Hp).
  - intros sorted Hs Hperm. rewrite (sorted_values_unique _ _ Hs Hperm).
    split; intros Hpar.
    + rewrite (proj2 (Nat.eqb_eq _ _) Hpar).
      apply at_index_lookup. rewrite Hlen.
      apply Nat.Div0.div_lt_upper_bound. lia.
    + rewrite Hpar. change (0 =? 1)%nat with false. cbv iota.
      assert (length values / 2 < length values)%nat
        by (apply Nat.div_lt; lia).
      eexists _, _. split; [|split; [|done]];
        apply at_index_lookup; rewrite Hlen; lia.
Qed.

(** C3. On a non-empty collection the mode of the summary is one of the
    values, no value occurs more often, and among the values that occur as
    often it is the smallest. *)
Theorem numeric_summary_mode (values : list Qc) :
  values ≠ [] →
  ∃ st, computeNumericStats values = Some st ∧
    mode st ∈ values ∧
    (∀ v, (occurrences v values ≤ occurrences (mode st) values)%nat) ∧
    (∀ v, occurrences v values = occurrences (mode st) values →
          (mode st ≤ v)%Qc).
Proof.
  intros Hne. rewrite (computeNumericStats_unfold _ Hne). cbv zeta.
  eexists. split; [done|]. cbn [mode].
  pose proof (sorted_values_perm values) as Hp.
  pose proof (mode_loop (at_index (sorted_values values) 0) _
                (sorted_values_sorted values)) as Hinv.
  destruct (foldl mode_step _ _) as [[freq m] best]. simpl.
  destruct Hinv as (_ & Hmax & _ & Hmode).
  destruct Hmode as (Hin & Hocc & Hleast).
  { intros Hnil. rewrite Hnil in Hp. by apply Permutation_nil in Hp. }
  setoid_rewrite <- (occurrences_perm _ _ _ Hp).
  rewrite Hocc. split; [by rewrite <- Hp|]. split; [done|]. exact Hleast.
Qed.

(** ** Empty inputs *)

Lemma build_both_empty ss fs key n :
  conditionValues ss key = [] → conditionValues fs key = [] →
  buildConditionDistributions ss fs key n =
  Ok {| binsSuccess := []; binsFail := []; statsSuccess := None; statsFail := None |}.
Proof. intros Hs Hf. unfold buildConditionDistributions. by rewrite Hs, Hf. Qed.

(** C6, stage by stage.  The summary of an empty collection is [null], and
    when no session of either cohort carries a usable value for the
    condition the binner returns empty bin sequences and no summaries,
    whatever the bin count.  The statistics page is built differently: with
    no session at all it shows counts of zero, a success rate of 0 and
    empty lists. *)
Theorem empty_inputs_unavailable :
  computeNumericStats [] = None ∧
  (∀ (successSessions failSessions : list session) (key : string) (binCount : Z),
     conditionValues successSessions key = [] →
     conditionValues failSessions key = [] →
     buildConditionDistributions successSessions failSessions key binCount =
     Ok {| binsSuccess := []; binsFail := [];
           statsSuccess := None; statsFail := None |}) ∧
  Stats.processSessions [] =
  {| Stats.globalKpis :=
       {| Stats.k_totalSessions := 0; Stats.k_totalDogs := 0;
          Stats.k_successRate := 0; Stats.k_totalFails := 0 |};
     Stats.perDogStats := [];
     Stats.scentStats := [];
     Stats.conditionSeries :=
       {| Stats.temp := []; Stats.hum := []; Stats.press := []; Stats.wind := [] |} |}.
Proof.
  split; [done|]. split; [|done]. intros ss fs key n. apply build_both_empty.
Qed.

(** C6 does not extend to the statistics page: with an empty list of
    sessions its global figures are zeros, not a marker of absence. *)
Lemma empty_sessions_zero_kpis :
  Stats.globalKpis (Stats.processSessions []) =
  {| Stats.k_totalSessions := 0; Stats.k_totalDogs := 0;
     Stats.k_successRate := 0; Stats.k_totalFails := 0 |}.
Proof. reflexivity. Qed.

(** ** Rankings *)

Lemma filter_sublist_mono {A} (P : A → Prop) `{!∀ x, Decision (P x)} l1 l2 :
  l1 `sublist_of` l2 → filter P l1 `sublist_of` filter P l2.
Proof.
  induction 1 as [|x l1 l2 _ IH|x l1 l2 _ IH]; [done| |];
    rewrite ?filter_cons; case_decide;
    auto using sublist_skip, sublist_cons.
Qed.

Lemma ranking_filter key c (stats : list Stats.Dog.stat) :
  filter (λ x, Stats.field key x = c) (Stats.ranking key stats) =
  filter (λ x, Stats.field key x = c) stats.
Proof.
  unfold Stats.ranking. destruct stats as [|x stats]; [done|].
  change (length (x :: stats) =? 0)%nat with false. cbv iota.
  apply Array_sort_stable. intros a b Hab Heq.
  apply (proj1 (Qc_cmp_minus _ _)), Qclt_not_eq in Hab. congruence.
Qed.

(** C9. Both rankings are stable for each of the keys they can be sorted
    by (the counts in the "absolute" mode, the rates otherwise): of two dogs
    with the same value of the key, the one met first in [perDogStats]
    stays first in the ranking. *)
Theorem rankings_stable (dogTableMode : string)
    (perDogStats : list Stats.Dog.stat) (a b : Stats.Dog.stat) :
  before a b perDogStats →
  (Stats.field (Stats.sortKeySuccess dogTableMode) a =
   Stats.field (Stats.sortKeySuccess dogTableMode) b →
   before a b (Stats.successRanking dogTableMode perDogStats)) ∧
  (Stats.field (Stats.sortKeyFail dogTableMode) a =
   Stats.field (Stats.sortKeyFail dogTableMode) b →
   before a b (Stats.failRanking dogTableMode perDogStats)).
Proof.
  intros Hab.
  assert (Hgen : ∀ key, Stats.field key a = Stats.field key b →
                        before a b (Stats.ranking key perDogStats)).
  { intros key Htie. unfold before.
    set (P := λ x, Stats.field key x = Stats.field key b).
    trans (filter P (Stats.ranking key perDogStats)); [|apply sublist_filter].
    unfold P. rewrite ranking_filter. fold P.
    replace [a; b] with (filter P [a; b]); [by apply filter_sublist_mono|].
    unfold P. rewrite !filter_cons, !decide_True; done. }
  split; apply Hgen.
Qed.

(** The keys of the two rankings, by mode. *)
Lemma sort_keys_by_mode :
  Stats.sortKeySuccess "absolute" = Stats.KSuccess ∧
  Stats.sortKeyFail "absolute" = Stats.KFail ∧
  Stats.sortKeySuccess "rate" = Stats.KSuccessRate ∧
  Stats.sortKeyFail "rate" = Stats.KFailRate.
Proof. done. Qed.

(** ** Arithmetic used by the histogram *)

Lemma Qcfloor_bounds q :
  (JS.Z2Qc (JS.Qcfloor q) ≤ q)%Qc ∧ (q < JS.Z2Qc (JS.Qcfloor q + 1))%Qc.
Proof.
  unfold JS.Qcfloor, Qcle, Qclt. simpl. split.
  - apply Qfloor_le.
  - apply Qlt_floor.
Qed.


Lemma Qcfloor_Z2Qc z : JS.Qcfloor (JS.Z2Qc z) = z.
Proof. apply Qfloor_Z. Qed.

Lemma Qcdiv_mult_cancel (b w : Qc) : w ≠ 0%Qc → (b / w * w)%Qc = b.
Proof. intros Hw. field. done. Qed.

Lemma Qcle_div_iff (a b w : Qc) : (0 < w)%Qc → (a ≤ b / w)%Qc ↔ (a * w ≤ b)%Qc.
Proof.
  intros Hw. rewrite (Qcmult_le_mono_pos_r a (b / w) w Hw).
  rewrite Qcdiv_mult_cancel; [done|]. by apply not_eq_sym, Qclt_not_eq.
Qed.

Lemma Qclt_div_iff (a b w : Qc) : (0 < w)%Qc → (b / w < a)%Qc ↔ (b < a * w)%Qc.
Proof.
  intros Hw. rewrite (Qcmult_lt_mono_pos_r (b / w) a w Hw).
  rewrite Qcdiv_mult_cancel; [done|]. by apply not_eq_sym, Qclt_not_eq.
Qed.

Lemma nat2Qc_Z2Qc (i : nat) : JS.nat2Qc i = JS.Z2Qc (Z.of_nat i).
Proof. done. Qed.

Lemma Z2Qc_pos n : 0 < n → (0 < JS.Z2Qc n)%Qc.
Proof. intros Hn%Z2Qc_inj_lt. by rewrite Z2Qc_inj_0 in Hn. Qed.

(** *** Numbers that stay finite *)

Lemma sub_Fin a b : JS.sub (Fin a) (Fin b) = Fin (a - b)%Qc.
Proof. done. Qed.

Lemma div_Fin a b : b ≠ 0%Qc → JS.div (Fin a) (Fin b) = Fin (a / b)%Qc.
Proof. intros Hb. simpl. by rewrite bool_decide_eq_false_2. Qed.

Lemma min2_Z a b :
  JS.min2 (Fin (JS.Z2Qc a)) (Fin (JS.Z2Qc b)) = Fin (JS.Z2Qc (Z.min a b)).
Proof.
  simpl. case_bool_decide as H; apply Z2Qc_inj_lt in H || rewrite <- Z2Qc_inj_lt in H;
    do 2 f_equal; lia.
Qed.

Lemma max2_Z a b :
  JS.max2 (Fin (JS.Z2Qc a)) (Fin (JS.Z2Qc b)) = Fin (JS.Z2Qc (Z.max a b)).
Proof.
  simpl. case_bool_decide as H; apply Z2Qc_inj_lt in H || rewrite <- Z2Qc_inj_lt in H;
    do 2 f_equal; lia.
Qed.

Lemma array_index_nat (i : nat) : array_index (Fin (JS.nat2Qc i)) = Some i.
Proof.
  unfold array_index. rewrite nat2Qc_Z2Qc, Qcfloor_Z2Qc.
  rewrite bool_decide_eq_true_2 by done.
  rewrite (proj2 (Z.leb_le 0 _)) by lia. simpl. by rewrite Nat2Z.id.
Qed.

(** *** Least and greatest value of a non-empty list *)

Lemma Math_min_is_min l :
  l ≠ [] → ∃ lo, JS.Math_min (Fin <$> l) = Fin lo ∧ is_min lo l.
Proof.
  induction l as [|x l IH]; [done|]. intros _.
  destruct l as [|y l].
  - exists x. split; [done|]. split; [by left|].
    intros v ->%list_elem_of_singleton. apply Qcle_refl.
  - destruct IH as (lo & Hlo & Hin & Hle); [done|].
    unfold JS.Math_min in *. rewrite fmap_cons. cbn [foldr]. rewrite Hlo.
    simpl. case_bool_decide as Hc.
    + exists lo. split; [done|]. split; [by right|].
      intros v [->|Hv]%elem_of_cons; [by apply Qclt_le_weak | by apply Hle].
    + apply Qcnot_lt_le in Hc. exists x. split; [done|]. split; [by left|].
      intros v [->|Hv]%elem_of_cons; [apply Qcle_refl|].
      eapply Qcle_trans; [exact Hc | by apply Hle].
Qed.

Lemma Math_max_is_max l :
  l ≠ [] → ∃ hi, JS.Math_max (Fin <$> l) = Fin hi ∧ is_max hi l.
Proof.
  induction l as [|x l IH]; [done|]. intros _.
  destruct l as [|y l].
  - exists x. split; [done|]. split; [by left|].
    intros v ->%list_elem_of_singleton. apply Qcle_refl.
  - destruct IH as (hi & Hhi & Hin & Hle); [done|].
    unfold JS.Math_max in *. rewrite fmap_cons. cbn [foldr]. rewrite Hhi.
    simpl. case_bool_decide as Hc.
    + exists hi. split; [done|]. split; [by right|].
      intros v [->|Hv]%elem_of_cons; [by apply Qclt_le_weak | by apply Hle].
    + apply Qcnot_lt_le in Hc. exists x. split; [done|]. split; [by left|].
      intros v [->|Hv]%elem_of_cons; [apply Qcle_refl|].
      eapply Qcle_trans; [by apply Hle | exact Hc].
Qed.

Lemma is_min_unique lo lo' l : is_min lo l → is_min lo' l → lo = lo'.
Proof. intros [H1 H2] [H3 H4]. apply Qcle_antisym; auto. Qed.

Lemma is_max_unique hi hi' l : is_max hi l → is_max hi' l → hi = hi'.
Proof. intros [H1 H2] [H3 H4]. apply Qcle_antisym; auto. Qed.

(** ** Facts about the bins of the specification *)

Section histogram_facts.
Variables (lo hi : Qc) (n : Z).
Hypothesis lo_lt_hi : (lo < hi)%Qc.
Hypothesis n_pos : 1 ≤ n.

Lemma Z2Qc_n_pos : (0 < JS.Z2Qc n)%Qc.
Proof. apply Z2Qc_pos. lia. Qed.

Lemma Z2Qc_n_ne : JS.Z2Qc n ≠ 0%Qc.
Proof. apply not_eq_sym, Qclt_not_eq, Z2Qc_n_pos. Qed.

Lemma bin_width_pos : (0 < bin_width lo hi n)%Qc.
Proof.
  unfold bin_width, Qcdiv. apply Qcmult_pos_pos.
  - by apply Qc_cmp_minus.
  - apply Qcinv_pos, Z2Qc_n_pos.
Qed.

Lemma bin_width_ne : bin_width lo hi n ≠ 0%Qc.
Proof. apply not_eq_sym, Qclt_not_eq, bin_width_pos. Qed.

Lemma bin_index_lt v : (bin_index lo hi n v < Z.to_nat n)%nat.
Proof. unfold bin_index. lia. Qed.






Lemma floor_ge_iff (k : Z) q : k ≤ JS.Qcfloor q ↔ (JS.Z2Qc k ≤ q)%Qc.
Proof.
  destruct (Qcfloor_bounds q) as [Hl Hu]. split.
  - intros Hk%Z2Qc_inj_le. by eapply Qcle_trans.
  - intros Hk. cut (k < JS.Qcfloor q + 1); [lia|].
    apply Z2Qc_inj_lt. by eapply Qcle_lt_trans.
Qed.

End histogram_facts.

(** ** The binner against the specification *)

Lemma bin_step_one min max : bin_step min max 1 = Fin 1%Qc.
Proof. done. Qed.

Lemma bin_step_regular lo hi n :
  (lo < hi)%Qc → 2 ≤ n → bin_step (Fin lo) (Fin hi) n = Fin (bin_width lo hi n).
Proof.
  intros Hlt Hn. unfold bin_step.
  destruct (Z.eqb_spec n 1) as [?|_]; [lia|].
  rewrite sub_Fin, div_Fin by (apply Z2Qc_n_ne; lia).
  fold (bin_width lo hi n). simpl.
  rewrite bool_decide_eq_false_2; [done|]. apply bin_width_ne; [done|lia].
Qed.

Lemma nat2Qc_0 : JS.nat2Qc 0 = 0%Qc.
Proof. apply Z2Qc_inj_0. Qed.

Lemma getIndex_spec lo hi n v :
  (lo < hi)%Qc → 1 ≤ n →
  getIndex (Fin lo) (bin_step (Fin lo) (Fin hi) n) n v =
  Fin (JS.nat2Qc (bin_index lo hi n v)).
Proof.
  intros Hlt Hn. unfold getIndex, bin_index.
  destruct (Z.eqb_spec n 1) as [->|Hn1].
  - replace (Z.max 0 (Z.min (1 - 1) _)) with 0 by lia.
    change (Z.to_nat 0) with 0%nat. by rewrite nat2Qc_0.
  - rewrite bin_step_regular by (done || lia).
    rewrite sub_Fin, div_Fin by (apply bin_width_ne; [done|lia]).
    cbn [JS.Math_floor]. rewrite <- Z2Qc_inj_0, min2_Z, max2_Z.
    unfold JS.nat2Qc. by rewrite Z2Nat.id by lia.
Qed.

Lemma make_bins_spec lo hi n :
  (lo < hi)%Qc → 1 ≤ n →
  make_bins (Fin lo) (Fin hi) (bin_step (Fin lo) (Fin hi) n) n =
  (λ i, {| start := Fin (bin_start lo hi n i);
           end_ := Fin (bin_end lo hi n i);
           success := 0; fail := 0 |}) <$> seq 0 (Z.to_nat n).
Proof.
  intros Hlt Hn. unfold make_bins. apply list_fmap_ext.
  intros i ? [-> Hi]%lookup_seq. cbn [Nat.add].
  unfold bin_end, bin_start.
  destruct (Z.eqb_spec n 1) as [->|Hn1].
  - assert (i = 0%nat) as -> by lia. rewrite bin_step_one. simpl.
    by rewrite nat2Qc_0, !Qcmult_0_l.
  - rewrite bin_step_regular by (done || lia). simpl.
    by destruct (Z.of_nat i =? n - 1).
Qed.

Lemma imap_id_ext {A} (g : nat → A → A) (l : list A) :
  (∀ i x, l !! i = Some x → g i x = x) → imap g l = l.
Proof.
  intros Hg. apply list_eq. intros i. rewrite list_lookup_imap.
  destruct (l !! i) as [x|] eqn:Hx; simpl; [|done]. by rewrite (Hg i x).
Qed.

(** Counting a cohort into the bins: when every value has an index inside
    the array, bin [i] receives one increment per value of index [i]. *)
Lemma count_into_spec (f : bin → bin) index (g : Qc → nat) vals bins :
  (∀ v, v ∈ vals → index v = Fin (JS.nat2Qc (g v)) ∧ (g v < length bins)%nat) →
  count_into f index vals bins =
  Ok (imap (λ i b, Nat.iter (length (filter (λ v, g v = i) vals)) f b) bins).
Proof.
  revert bins. induction vals as [|v vals IH]; intros bins Hidx.
  - simpl. f_equal. symmetry. by apply imap_id_ext.
  - destruct (Hidx v) as [Hv Hlt]; [by left|].
    destruct (lookup_lt_is_Some_2 bins (g v) Hlt) as [b Hb].
    unfold count_into in *. cbn [foldl res_bind].
    unfold bump at 2. rewrite Hv, array_index_nat, Hb.
    rewrite IH.
    2:{ intros w Hw. rewrite length_insert. apply Hidx. by right. }
    f_equal. apply list_eq. intros i. rewrite !list_lookup_imap.
    rewrite filter_cons.
    case_decide as E; [subst i|].
    + rewrite list_lookup_insert_eq by done. rewrite Hb. cbn [fmap option_fmap option_map length].
      by rewrite Nat.iter_succ_r.
    + by rewrite list_lookup_insert_ne by done.
Qed.

Lemma iter_add_success k b :
  Nat.iter k add_success b =
  {| start := start b; end_ := end_ b; success := k + success b; fail := fail b |}.
Proof.
  induction k as [|k IH]; simpl; [by destruct b|]. by rewrite IH.
Qed.

Lemma iter_add_fail k b :
  Nat.iter k add_fail b =
  {| start := start b; end_ := end_ b; success := success b; fail := k + fail b |}.
Proof.
  induction k as [|k IH]; simpl; [by destruct b|]. by rewrite IH.
Qed.

(** The two counting loops and the final [map]s, for bins that start empty. *)
Lemma count_cohorts (eb : Z) (mk : nat → bin) index (g : Qc → nat)
    (s f : list Qc) (N : nat) (st1 st2 : option numericStats) :
  (∀ i, success (mk i) = 0%nat ∧ fail (mk i) = 0%nat) →
  (∀ v, index v = Fin (JS.nat2Qc (g v)) ∧ (g v < N)%nat) →
  res_bind (count_into add_success index s (mk <$> seq 0 N)) (λ bins,
  res_bind (count_into add_fail index f bins) (λ bins,
    Ok {| binsSuccess :=
            (λ b, {| range := formatLabel eb b; count := success b |}) <$> bins;
          binsFail :=
            (λ b, {| range := formatLabel eb b; count := fail b |}) <$> bins;
          statsSuccess := st1; statsFail := st2 |})) =
  Ok {| binsSuccess :=
          (λ i, {| range := formatLabel eb (mk i);
                   count := length (filter (λ v, g v = i) s) |}) <$> seq 0 N;
        binsFail :=
          (λ i, {| range := formatLabel eb (mk i);
                   count := length (filter (λ v, g v = i) f) |}) <$> seq 0 N;
        statsSuccess := st1; statsFail := st2 |}.
Proof.
  intros Hmk Hidx.
  rewrite (count_into_spec _ _ g).
  2:{ intros v _. rewrite length_fmap, length_seq. apply Hidx. }
  cbn [res_bind]. rewrite (count_into_spec _ _ g).
  2:{ intros v _. rewrite length_imap, length_fmap, length_seq. apply Hidx. }
  cbn [res_bind]. f_equal.
  f_equal; apply list_eq; intros i;
    rewrite !list_lookup_fmap, !list_lookup_imap, !list_lookup_fmap;
    destruct (seq 0 N !! i) as [j|] eqn:Hj; simpl; try done;
    apply lookup_seq in Hj as [-> _]; simpl;
    rewrite iter_add_fail, iter_add_success; unfold formatLabel; simpl;
    destruct (Hmk i) as [E1 E2]; rewrite ?E1, ?E2; do 2 f_equal; lia.
Qed.

Lemma filter_all {A} (P : A → Prop) `{!∀ x, Decision (P x)} (l : list A) :
  (∀ x, P x) → filter P l = l.
Proof.
  intros HP. induction l as [|x l IH]; [done|].
  by rewrite filter_cons, decide_True, IH.
Qed.

Lemma build_unfold ss fs key n lo hi :
  is_min lo (conditionValues ss key ++ conditionValues fs key) →
  is_max hi (conditionValues ss key ++ conditionValues fs key) →
  buildConditionDistributions ss fs key n =
  let eb := effective_bin_count (Fin lo) (Fin hi) n in
  let step := bin_step (Fin lo) (Fin hi) eb in
  let index := getIndex (Fin lo) step eb in
  res_bind (count_into add_success index (conditionValues ss key)
              (make_bins (Fin lo) (Fin hi) step eb)) (λ bins,
  res_bind (count_into add_fail index (conditionValues fs key) bins) (λ bins,
    Ok {| binsSuccess :=
            (λ b, {| range := formatLabel eb b; count := success b |}) <$> bins;
          binsFail :=
            (λ b, {| range := formatLabel eb b; count := fail b |}) <$> bins;
          statsSuccess := computeNumericStats (conditionValues ss key);
          statsFail := computeNumericStats (conditionValues fs key) |})).
Proof.
  intros Hmin Hmax. unfold buildConditionDistributions.
  set (all := conditionValues ss key ++ conditionValues fs key) in *.
  assert (Hne : all ≠ []).
  { destruct Hmin as [Hin _]. intros E. rewrite E in Hin. by apply elem_of_nil in Hin. }
  destruct (Math_min_is_min all Hne) as (lo' & -> & Hlo').
  destruct (Math_max_is_max all Hne) as (hi' & -> & Hhi').
  rewrite (is_min_unique _ _ _ Hlo' Hmin), (is_max_unique _ _ _ Hhi' Hmax).
  destruct all; [done|]. done.
Qed.

Lemma effective_bin_count_eq lo n : effective_bin_count (Fin lo) (Fin lo) n = 1.
Proof. unfold effective_bin_count. simpl. by rewrite bool_decide_eq_true_2. Qed.

Lemma effective_bin_count_ne lo hi n :
  lo ≠ hi → effective_bin_count (Fin lo) (Fin hi) n = n.
Proof.
  intros Hne. unfold effective_bin_count. simpl.
  rewrite bool_decide_eq_false_2; [done|]. congruence.
Qed.

Lemma min_lt_max lo hi l : is_min lo l → is_max hi l → lo ≠ hi → (lo < hi)%Qc.
Proof.
  intros [Hin Hle] [_ Hge] Hne.
  destruct (Qcle_lt_or_eq lo hi) as [?|?]; [by apply Hge|done|done].
Qed.

(** All values equal: one bin, labelled by the value, holding every value
    of the cohort. *)
Lemma build_single ss fs key n lo :
  is_min lo (conditionValues ss key ++ conditionValues fs key) →
  is_max lo (conditionValues ss key ++ conditionValues fs key) →
  buildConditionDistributions ss fs key n =
  Ok {| binsSuccess :=
          [{| range := JS.toFixed1 (Fin lo);
              count := length (conditionValues ss key) |}];
        binsFail :=
          [{| range := JS.toFixed1 (Fin lo);
              count := length (conditionValues fs key) |}];
        statsSuccess := computeNumericStats (conditionValues ss key);
        statsFail := computeNumericStats (conditionValues fs key) |}.
Proof.
  intros Hmin Hmax. rewrite (build_unfold _ _ _ _ lo lo Hmin Hmax).
  rewrite effective_bin_count_eq. cbv zeta. rewrite bin_step_one.
  unfold make_bins. change (Z.to_nat 1) with 1%nat.
  rewrite (count_cohorts 1 _ _ (λ _, 0%nat)).
  - simpl. rewrite !(filter_all (λ _ : Qc, 0%nat = 0%nat)) by done.
    unfold formatLabel. simpl.
    by rewrite nat2Qc_0, Qcmult_0_l, Qcplus_0_r.
  - done.
  - intros v. split; [|lia]. unfold getIndex. simpl. by rewrite nat2Qc_0.
Qed.

(** Values that differ and a positive bin count: the bins of the
    specification. *)
Lemma build_regular ss fs key n lo hi :
  is_min lo (conditionValues ss key ++ conditionValues fs key) →
  is_max hi (conditionValues ss key ++ conditionValues fs key) →
  lo ≠ hi → 1 ≤ n →
  buildConditionDistributions ss fs key n =
  Ok {| binsSuccess := histogram lo hi n (conditionValues ss key);
        binsFail := histogram lo hi n (conditionValues fs key);
        statsSuccess := computeNumericStats (conditionValues ss key);
        statsFail := computeNumericStats (conditionValues fs key) |}.
Proof.
  intros Hmin Hmax Hne Hn.
  pose proof (min_lt_max _ _ _ Hmin Hmax Hne) as Hlt.
  rewrite (build_unfold _ _ _ _ lo hi Hmin Hmax).
  rewrite (effective_bin_count_ne _ _ _ Hne). cbv zeta.
  rewrite (make_bins_spec _ _ _ Hlt Hn).
  rewrite (count_cohorts n _ _ (bin_index lo hi n)).
  - done.
  - done.
  - intros v. split; [by apply getIndex_spec | by apply bin_index_lt].
Qed.

(** A bin count that is not positive: there is no bin to count the first
    value into. *)
Lemma count_into_no_bins f index v vals :
  count_into f index (v :: vals) [] = TypeError.
Proof.
  unfold count_into. cbn [foldl res_bind].
  assert (bump f [] (index v) = TypeError) as ->.
  { unfold bump. by destruct (array_index (index v)). }
  induction vals as [|w vals IH]; [done|]. exact IH.
Qed.

Lemma build_no_bins ss fs key n lo hi :
  is_min lo (conditionValues ss key ++ conditionValues fs key) →
  is_max hi (conditionValues ss key ++ conditionValues fs key) →
  lo ≠ hi → n ≤ 0 →
  buildConditionDistributions ss fs key n = TypeError.
Proof.
  intros Hmin Hmax Hne Hn.
  rewrite (build_unfold _ _ _ _ lo hi Hmin Hmax).
  rewrite (effective_bin_count_ne _ _ _ Hne). cbv zeta.
  unfold make_bins. replace (Z.to_nat n) with 0%nat by lia. cbn [seq fmap list_fmap].
  destruct Hmin as [Hin _].
  destruct (conditionValues ss key) as [|v s].
  - destruct (conditionValues fs key) as [|w f]; [by apply elem_of_nil in Hin|].
    unfold count_into at 1. cbn [foldl res_bind]. by rewrite count_into_no_bins.
  - by rewrite count_into_no_bins.
Qed.

(** ** The histogram *)





(** ** Every value is counted once *)







(** ** Facts about grouping *)

Section grouping_facts.
Context {X K V : Type} `{EqDecision K}.
Variables (keyOf : X → option K) (init : K → V) (hit : X → V → V).

Lemma group_get xs k :
  JsMap.get (foldl (group_step keyOf init hit) [] xs) k =
  if decide (members keyOf k xs = []) then None
  else Some (foldl (λ v x, hit x v) (init k) (members keyOf k xs)).
Proof.
  induction xs as [|x xs IH] using rev_ind; [done|].
  rewrite foldl_app. cbn [foldl]. unfold members in *.
  rewrite filter_app, filter_cons, filter_nil.
  unfold group_step at 1. destruct (keyOf x) as [k'|] eqn:Hx.
  - rewrite get_upsert. destruct (decide (k' = k)) as [->|Hne].
    + rewrite (decide_True (P := Some k = Some k)) by done.
      rewrite decide_False by (by destruct (filter _ xs)).
      rewrite foldl_app. cbn [foldl]. rewrite IH.
      case_decide as Hnil; [by rewrite Hnil|done].
    + rewrite (decide_False (P := Some k' = Some k)) by congruence.
      by rewrite app_nil_r.
  - rewrite (decide_False (P := None = Some k)) by done. by rewrite app_nil_r.
Qed.

Lemma group_keys_NoDup xs : NoDup (JsMap.keys (foldl (group_step keyOf init hit) [] xs)).
Proof.
  induction xs as [|x xs IH] using rev_ind; [constructor|].
  rewrite foldl_app. cbn [foldl]. unfold group_step at 1.
  destruct (keyOf x) as [k|]; [|done].
  rewrite keys_upsert. unfold JsMap.has.
  destruct (JsMap.get _ k) eqn:Hk; [done|].
  apply NoDup_app. split; [done|]. split; [|apply NoDup_singleton].
  intros y Hy ->%list_elem_of_singleton. by apply get_None_keys in Hk.
Qed.

Lemma group_keys_elem xs k :
  k ∈ JsMap.keys (foldl (group_step keyOf init hit) [] xs) ↔ ∃ x, x ∈ xs ∧ keyOf x = Some k.
Proof.
  destruct (decide (k ∈ JsMap.keys (foldl (group_step keyOf init hit) [] xs))) as [Hin|Hnin].
  - split; [intros _|done].
    destruct (JsMap.get (foldl (group_step keyOf init hit) [] xs) k) eqn:Hk.
    2:{ by apply get_None_keys in Hk. }
    rewrite group_get in Hk. case_decide as Hm; [done|].
    destruct (members keyOf k xs) as [|x l] eqn:E; [done|].
    exists x. apply and_comm.
    apply (list_elem_of_filter (λ x, keyOf x = Some k) xs).
    unfold members in E. rewrite E. by left.
  - split; [done|]. intros (x & Hx & Hkx). exfalso.
    apply get_None_keys in Hnin. rewrite group_get in Hnin.
    case_decide as Hm; [|done].
    eapply (filter_nil_not_elem_of _ xs x); [exact Hm|exact Hkx|exact Hx].
Qed.

Lemma group_values xs v :
  v ∈ JsMap.values (foldl (group_step keyOf init hit) [] xs) ↔
  ∃ k, members keyOf k xs ≠ [] ∧ v = foldl (λ v x, hit x v) (init k) (members keyOf k xs).
Proof.
  rewrite (elem_of_values _ _ (group_keys_NoDup xs)).
  split.
  - intros [k Hk]. exists k. rewrite group_get in Hk.
    case_decide; [done|]. split; [done|congruence].
  - intros (k & Hne & ->). exists k. rewrite group_get. by rewrite decide_False.
Qed.
End grouping_facts.

(** ** The aggregate-statistics page *)

Lemma scent_label_code s :
  JS.str_or (from_option scent None (type_ s)) Stats.unknown_scent = scent_label s.
Proof.
  unfold scent_label. destruct (type_ s) as [[[l|]]|]; simpl; try done.
  by case_bool_decide; case_decide.
Qed.

Lemma scentMap_fold a l :
  Stats.scentMap (foldl Stats.session_step a l) =
  foldl (group_step (λ s, Some (scent_label s)) scent_init scent_hit)
        (Stats.scentMap a) l.
Proof.
  revert a. induction l as [|s l IH]; intros a; [done|].
  cbn [foldl]. rewrite IH. f_equal.
  unfold group_step. rewrite <- scent_label_code. done.
Qed.

Lemma cond_step_group key s m :
  Stats.cond_step (default ∅ (conditions s)) (isSuccessResult (result s)) key m =
  group_step (λ s, getConditionValue s key) cond_init cond_hit m s.
Proof.
  unfold Stats.cond_step, group_step, getConditionValue.
  destruct (default JUndefined (default ∅ (conditions s) !! key)) as [| |b|[q| | |]|t];
    try done.
  by destruct (JS.parseFloat t).
Qed.

Lemma cond_map_fold key a l :
  key ∈ recognized_keys →
  cond_map_of key (Stats.maps (foldl Stats.session_step a l)) =
  foldl (group_step (λ s, getConditionValue s key) cond_init cond_hit)
        (cond_map_of key (Stats.maps a)) l.
Proof.
  intros Hkey. revert a. induction l as [|s l IH]; intros a; [done|].
  cbn [foldl]. rewrite IH. f_equal. rewrite <- cond_step_group.
  unfold recognized_keys in Hkey.
  repeat (apply elem_of_cons in Hkey as [->|Hkey]); try done.
  by apply elem_of_nil in Hkey.
Qed.

Lemma count_success_cons s l :
  length (filter is_success (s :: l)) =
    ((if isSuccessResult (result s) then 1 else 0) + length (filter is_success l))%nat ∧
  length (filter (λ s, ¬ is_success s) (s :: l)) =
    ((if isSuccessResult (result s) then 0 else 1)
     + length (filter (λ s, ¬ is_success s) l))%nat.
Proof.
  rewrite !filter_cons. destruct (decide (is_success s)) as [E|E].
  - rewrite decide_False by (intros HE; by apply HE).
    unfold is_success in E. by rewrite E.
  - rewrite decide_True by done.
    unfold is_success in E. apply not_true_is_false in E. by rewrite E.
Qed.

Lemma count_success_snoc s l :
  length (filter is_success (l ++ [s])) =
    (length (filter is_success l) + if isSuccessResult (result s) then 1 else 0)%nat ∧
  length (filter (λ s, ¬ is_success s) (l ++ [s])) =
    (length (filter (λ s, ¬ is_success s) l)
     + if isSuccessResult (result s) then 0 else 1)%nat.
Proof.
  rewrite !filter_app, !length_app.
  destruct (count_success_cons s []) as [-> ->]. simpl. lia.
Qed.

Lemma totals_fold a l :
  Stats.totalSessions (foldl Stats.session_step a l) =
    (Stats.totalSessions a + length l)%nat ∧
  Stats.totalSuccess (foldl Stats.session_step a l) =
    (Stats.totalSuccess a + length (filter is_success l))%nat ∧
  Stats.totalFail (foldl Stats.session_step a l) =
    (Stats.totalFail a + length (filter (λ s, ¬ is_success s) l))%nat.
Proof.
  revert a. induction l as [|s l IH]; intros a.
  - simpl. lia.
  - cbn [foldl]. destruct (IH (Stats.session_step a s)) as (-> & -> & ->).
    destruct (count_success_cons s l) as [-> ->].
    cbn [Stats.session_step Stats.totalSessions Stats.totalSuccess Stats.totalFail].
    change (bool_decide (JS.toLowerCase (JS.str_or (result s) "") = "success"))
      with (isSuccessResult (result s)).
    destruct (isSuccessResult (result s)); simpl; lia.
Qed.

Lemma scent_fold_fields k l :
  let e := foldl (λ v x, scent_hit x v) (scent_init k) l in
  Stats.Scent.scent e = k ∧
  Stats.Scent.total e = length l ∧
  Stats.Scent.success e = length (filter is_success l) ∧
  Stats.Scent.fail e = length (filter (λ s, ¬ is_success s) l).
Proof.
  induction l as [|s l IH] using rev_ind; [done|].
  cbv zeta in *. rewrite foldl_app. cbn [foldl].
  destruct IH as (H1 & H2 & H3 & H4).
  destruct (count_success_snoc s l) as [-> ->]. rewrite length_app.
  set (e0 := foldl _ _ l) in *. unfold scent_hit, Stats.Scent.hit.
  cbn [Stats.Scent.scent Stats.Scent.total Stats.Scent.success Stats.Scent.fail].
  rewrite H1, H2, H3, H4.
  destruct (isSuccessResult (result s)); simpl; (split; [done|lia]).
Qed.

Lemma cond_fold_fields q l :
  let e := foldl (λ v x, cond_hit x v) (cond_init q) l in
  Stats.Cond.value e = q ∧
  Stats.Cond.total e = length l ∧
  Stats.Cond.success e = length (filter is_success l) ∧
  Stats.Cond.fail e = length (filter (λ s, ¬ is_success s) l).
Proof.
  induction l as [|s l IH] using rev_ind; [done|].
  cbv zeta in *. rewrite foldl_app. cbn [foldl].
  destruct IH as (H1 & H2 & H3 & H4).
  destruct (count_success_snoc s l) as [-> ->]. rewrite length_app.
  set (e0 := foldl _ _ l) in *. unfold cond_hit, Stats.Cond.hit.
  cbn [Stats.Cond.value Stats.Cond.total Stats.Cond.success Stats.Cond.fail].
  rewrite H1, H2, H3, H4.
  destruct (isSuccessResult (result s)); simpl; (split; [done|lia]).
Qed.

Lemma Math_round_nearest q : nearest_integer q (JS.Math_round q).
Proof. apply Qcfloor_bounds. Qed.

(** The digits written for a non-negative integer denote it. *)
Lemma digits_value_app a s1 s2 :
  digits_value a (s1 +:+ s2) = digits_value (digits_value a s1) s2.
Proof. revert a. induction s1 as [|c s1 IH]; intros a; simpl; [done|apply IH]. Qed.

Lemma digit_val_char m : 0 ≤ m < 10 → JS.digit_val (JS.digit_char m) = m.
Proof.
  intros Hm. unfold JS.digit_val, JS.digit_char.
  rewrite nat_ascii_embedding by lia. lia.
Qed.

Lemma digits_fuel_value fuel n acc :
  0 ≤ n < 2 ^ Z.of_nat fuel →
  ∃ s1, JS.digits_fuel fuel n acc = s1 +:+ acc ∧ digits_value 0 s1 = n.
Proof.
  revert n acc. induction fuel as [|fuel IH]; intros n acc Hn.
  - exists "". split; [done|]. simpl in *. lia.
  - cbn [JS.digits_fuel].
    assert (Hmod : 0 ≤ n mod 10 < 10) by (apply Z.mod_pos_bound; lia).
    destruct (Z.eqb_spec (n / 10) 0) as [Hq|Hq].
    + exists (String (JS.digit_char (n mod 10)) ""). split; [done|].
      simpl. rewrite digit_val_char by done.
      pose proof (Z.div_mod n 10). lia.
    + destruct (IH (n / 10) (String (JS.digit_char (n mod 10)) acc))
        as (s1 & Hs1 & Hv).
      { rewrite Nat2Z.inj_succ, Z.pow_succ_r in Hn by lia.
        split; [apply Z.div_pos; lia|].
        apply Z.div_lt_upper_bound; lia. }
      exists (s1 +:+ String (JS.digit_char (n mod 10)) "").
      split.
      * rewrite Hs1. clear. induction s1 as [|c s1 IHs]; [done|].
        change (String c (s1 +:+ String (JS.digit_char (n mod 10)) acc) =
                String c ((s1 +:+ String (JS.digit_char (n mod 10)) "") +:+ acc)).
        by rewrite IHs.
      * rewrite digits_value_app, Hv. simpl. rewrite digit_val_char by done.
        pose proof (Z.div_mod n 10). lia.
Qed.

Lemma Z_digits_value n : 0 ≤ n → digits_value 0 (JS.Z_digits n) = n.
Proof.
  intros Hn. unfold JS.Z_digits.
  destruct (digits_fuel_value (S (Z.to_nat (Z.log2 n))) n "") as (s1 & -> & Hv).
  - split; [done|]. rewrite Nat2Z.inj_succ, Z2Nat.id by apply Z.log2_nonneg.
    destruct (Z.eq_dec n 0) as [->|Hn0]; [done|].
    apply Z.log2_spec. lia.
  - rewrite digits_value_app. done.
Qed.

(** [toFixed(1)] writes one digit after the point, and that digit is the
    last digit of the nearest integer to ten times the magnitude. *)
Lemma Z_digits_digit m :
  0 ≤ m < 10 → JS.Z_digits m = String (JS.digit_char m) "".
Proof.
  intros Hm. unfold JS.Z_digits. cbn [JS.digits_fuel].
  rewrite (Z.mod_small m 10), (Z.div_small m 10) by lia. done.
Qed.

Lemma toFixed1_format q :
  let a := if bool_decide (q < 0)%Qc then (- q)%Qc else q in
  let N := JS.Math_round (a * JS.Z2Qc 10)%Qc in
  JS.toFixed1 (Fin q) =
    (if bool_decide (q < 0)%Qc then "-" else "")
    +:+ JS.Z_digits (N / 10) +:+ "." +:+ String (JS.digit_char (N mod 10)) "" ∧
  0 ≤ N mod 10 < 10 ∧
  nearest_integer (a * JS.Z2Qc 10)%Qc N.
Proof.
  cbv zeta. split; [|split].
  - unfold JS.toFixed1, JS.Math_round. cbv zeta.
    rewrite (Z_digits_digit (_ mod 10)); [reflexivity|].
    apply Z.mod_pos_bound. lia.
  - apply Z.mod_pos_bound. lia.
  - apply Math_round_nearest.
Qed.


Section jsmap_entries.
Context {K V : Type} `{EqDecision K}.

Lemma elem_of_get (m : list (K * V)) k v :
  NoDup (JsMap.keys m) → (k, v) ∈ m → JsMap.get m k = Some v.
Proof.
  unfold JsMap.keys. induction m as [|[k0 v0] m IH]; csimpl.
  - by intros _ ?%elem_of_nil.
  - intros [Hk0 Hnd]%NoDup_cons [[= -> ->]|Hin]%elem_of_cons.
    + by rewrite decide_True.
    + rewrite decide_False; [by apply IH|]. intros ->. apply Hk0.
      apply list_elem_of_fmap. by exists (k, v).
Qed.
End jsmap_entries.

Section grouping_entries.
Context {X K V : Type} `{EqDecision K}.
Variables (keyOf : X → option K) (init : K → V) (hit : X → V → V).

Lemma group_entries xs k v :
  (k, v) ∈ foldl (group_step keyOf init hit) [] xs →
  members keyOf k xs ≠ [] ∧
  v = foldl (λ v x, hit x v) (init k) (members keyOf k xs).
Proof.
  intros Hin. apply elem_of_get in Hin; [|apply group_keys_NoDup].
  rewrite group_get in Hin. case_decide; [done|]. split; [done|congruence].
Qed.
End grouping_entries.

Lemma scentStats_eq sessions :
  Stats.scentStats (Stats.processSessions sessions) =
  (λ s, {| Stats.Scent.s := s;
           Stats.Scent.successRate :=
             Stats.rounded_rate (Stats.Scent.success s) (Stats.Scent.total s) |})
  <$> JsMap.values
        (foldl (group_step (λ s, Some (scent_label s)) scent_init scent_hit) [] sessions).
Proof.
  unfold Stats.processSessions. destruct sessions as [|s l]; [done|].
  change (length (s :: l) =? 0)%nat with false. cbv iota zeta.
  cbn [Stats.scentStats]. by rewrite scentMap_fold.
Qed.




Lemma series_eq sessions key :
  key ∈ recognized_keys →
  Stats.series_of (Stats.conditionSeries (Stats.processSessions sessions)) key =
  Stats.buildSeries
    (foldl (group_step (λ s, getConditionValue s key) cond_init cond_hit) [] sessions).
Proof.
  intros Hkey.
  trans (Stats.buildSeries
           (cond_map_of key (Stats.maps (foldl Stats.session_step Stats.empty_accum sessions)))).
  - unfold Stats.processSessions, recognized_keys in *.
    destruct sessions as [|s l];
      repeat (apply elem_of_cons in Hkey as [->|Hkey]); try done;
      by apply elem_of_nil in Hkey.
  - f_equal. rewrite (cond_map_fold key Stats.empty_accum sessions Hkey).
    f_equal. unfold cond_map_of. by repeat case_bool_decide.
Qed.

Lemma buildSeries_perm m :
  Stats.buildSeries m ≡ₚ cond_point <$> JsMap.values m.
Proof. unfold Stats.buildSeries. apply Array_sort_perm. Qed.






(** ** Absent condition values *)


(** [parseFloat] reads a numeric prefix: texts such as "12abc" do have a
    value; texts without such a prefix, and "Infinity", have none. *)
Example getConditionValue_texts :
  getConditionValue (reading "temp" (JStr "12abc")) "temp" = Some (JS.Z2Qc 12) ∧
  getConditionValue (reading "temp" (JStr " 3.5e1")) "temp" = Some (JS.Z2Qc 35) ∧
  getConditionValue (reading "temp" (JStr "-.5")) "temp"
    = Some (- (1 / JS.Z2Qc 2))%Qc ∧
  getConditionValue (reading "temp" (JStr "not-a-number")) "temp" = None ∧
  getConditionValue (reading "temp" (JStr "")) "temp" = None ∧
  getConditionValue (reading "temp" (JStr "Infinity")) "temp" = None ∧
  getConditionValue (reading "temp" (JBool true)) "temp" = None ∧
  getConditionValue (reading "temp" JNull) "temp" = None ∧
  getConditionValue (reading "temp" (num 21)) "hum" = None ∧
  getConditionValue (reading "temp" (num 0)) "temp" = Some (JS.Z2Qc 0).
Proof. repeat split; by_computation. Qed.



Lemma kpis_counts l :
  let k := Stats.globalKpis (Stats.processSessions l) in
  Stats.k_totalSessions k = length l ∧
  Stats.k_totalFails k = length (filter (λ s, ¬ is_success s) l) ∧
  Stats.k_successRate k = Stats.rounded_rate (length (filter is_success l)) (length l).
Proof.
  unfold Stats.processSessions. destruct l as [|s l]; [done|].
  change (length (s :: l) =? 0)%nat with false. cbv iota zeta.
  cbn [Stats.globalKpis Stats.k_totalSessions Stats.k_totalFails Stats.k_successRate].
  destruct (totals_fold Stats.empty_accum (s :: l)) as (-> & -> & ->). done.
Qed.


(** ** The examples of the specification *)

(** [1,2,3,4] has median 2.5 and [1,2,3] has median 2. *)
Example median_examples :
  median <$> computeNumericStats [JS.Z2Qc 1; JS.Z2Qc 2; JS.Z2Qc 3; JS.Z2Qc 4]
    = Some (JS.Z2Qc 5 / JS.Z2Qc 2)%Qc ∧
  median <$> computeNumericStats [JS.Z2Qc 1; JS.Z2Qc 2; JS.Z2Qc 3]
    = Some (JS.Z2Qc 2) ∧
  median <$> computeNumericStats [JS.Z2Qc 4; JS.Z2Qc 1; JS.Z2Qc 3; JS.Z2Qc 2]
    = Some (JS.Z2Qc 5 / JS.Z2Qc 2)%Qc ∧
  mean <$> computeNumericStats [JS.Z2Qc 1; JS.Z2Qc 2; JS.Z2Qc 3; JS.Z2Qc 4]
    = Some (JS.Z2Qc 5 / JS.Z2Qc 2)%Qc.
Proof. repeat split; by_computation. Qed.

(** [1,1,2,2] has mode 1, also when the values come in another order. *)
Example mode_examples :
  mode <$> computeNumericStats [JS.Z2Qc 1; JS.Z2Qc 1; JS.Z2Qc 2; JS.Z2Qc 2]
    = Some (JS.Z2Qc 1) ∧
  mode <$> computeNumericStats [JS.Z2Qc 2; JS.Z2Qc 1; JS.Z2Qc 2; JS.Z2Qc 1]
    = Some (JS.Z2Qc 1) ∧
  mode <$> computeNumericStats [JS.Z2Qc 3; JS.Z2Qc 7; JS.Z2Qc 7; JS.Z2Qc 3; JS.Z2Qc 7]
    = Some (JS.Z2Qc 7).
Proof. repeat split; by_computation. Qed.

(** Three times the value 1 in each cohort: one bin "1.0" with counts 3
    and 3.  The values 0 and 10 against 5 with two bins: 5 falls in the
    last bin. *)
Example histogram_examples :
  bins_of (buildConditionDistributions
             [reading "temp" (num 1); reading "temp" (num 1); reading "temp" (num 1)]
             [reading "temp" (num 1); reading "temp" (num 1); reading "temp" (num 1)]
             "temp" default_binCount)
    = Some ([{| range := "1.0"; count := 3 |}], [{| range := "1.0"; count := 3 |}]) ∧
  bins_of (buildConditionDistributions
             [reading "temp" (num 0); reading "temp" (num 10)]
             [reading "temp" (num 5)] "temp" 2)
    = Some ([{| range := "0.0–5.0"; count := 1 |};
             {| range := "5.0–10.0"; count := 1 |}],
            [{| range := "0.0–5.0"; count := 0 |};
             {| range := "5.0–10.0"; count := 1 |}]) ∧
  bins_of (buildConditionDistributions
             [reading "temp" (num 0); reading "temp" (num 10)]
             [reading "temp" (num 5)] "temp" 1)
    = Some ([{| range := "0.0"; count := 2 |}], [{| range := "0.0"; count := 1 |}]).
Proof. by vm_compute. Qed.

(** ** The theorems at concrete inputs *)


Lemma numeric_summary_mean_median_witness :
  ∃ st, computeNumericStats [JS.Z2Qc 1; JS.Z2Qc 2; JS.Z2Qc 3; JS.Z2Qc 4] = Some st ∧
        mean st = (Qcsum [JS.Z2Qc 1; JS.Z2Qc 2; JS.Z2Qc 3; JS.Z2Qc 4] / JS.nat2Qc 4)%Qc.
Proof.
  destruct (numeric_summary_mean_median
              [JS.Z2Qc 1; JS.Z2Qc 2; JS.Z2Qc 3; JS.Z2Qc 4]) as (st & Hst & Hmean & _).
  - discriminate.
  - exists st. split; [exact Hst | exact Hmean].
Defined.

Lemma numeric_summary_mode_witness :
  ∃ st, computeNumericStats [JS.Z2Qc 1; JS.Z2Qc 1; JS.Z2Qc 2; JS.Z2Qc 2] = Some st ∧
        mode st ∈ [JS.Z2Qc 1; JS.Z2Qc 1; JS.Z2Qc 2; JS.Z2Qc 2].
Proof.
  destruct (numeric_summary_mode
              [JS.Z2Qc 1; JS.Z2Qc 1; JS.Z2Qc 2; JS.Z2Qc 2]) as (st & Hst & Hin & _).
  - discriminate.
  - exists st. split; [exact Hst | exact Hin].
Defined.


Lemma empty_inputs_unavailable_witness :
  buildConditionDistributions
    [reading "temp" (JStr "abc")] [reading "hum" (num 3)] "temp" default_binCount =
  Ok {| binsSuccess := []; binsFail := []; statsSuccess := None; statsFail := None |}.
Proof.
  apply (proj1 (proj2 empty_inputs_unavailable)); reflexivity.
Defined.


(** The groups of [scent_sessions], in the order the labels are met. *)
Example scent_groups_example :
  (λ st, (Stats.Scent.scent (Stats.Scent.s st),
          Stats.Scent.total (Stats.Scent.s st),
          Stats.Scent.success (Stats.Scent.s st),
          Stats.Scent.fail (Stats.Scent.s st),
          Stats.Scent.successRate st))
  <$> Stats.scentStats (Stats.processSessions scent_sessions)
  = [("tnt", 2%nat, 1%nat, 1%nat, 50); ("Desconocido", 2%nat, 1%nat, 1%nat, 50)].
Proof. by vm_compute. Qed.


(** The temperature series of [measured_sessions]: values 3, 15.5 and 20. *)
Example condition_series_example :
  (λ p, (JS.toFixed1 (Fin (point_value p)),
         Stats.Cond.total (Stats.Cond.e p),
         Stats.Cond.success (Stats.Cond.e p),
         Stats.Cond.fail (Stats.Cond.e p),
         Stats.Cond.successRate p))
  <$> Stats.series_of
        (Stats.conditionSeries (Stats.processSessions measured_sessions)) "temp"
  = [("3.0", 1%nat, 1%nat, 0%nat, 100); ("15.5", 1%nat, 0%nat, 1%nat, 0);
     ("20.0", 2%nat, 1%nat, 1%nat, 50)].
Proof. by vm_compute. Qed.

Lemma rankings_stable_witness :
  before (dog_stat 1 2 3) (dog_stat 3 2 0)
    [dog_stat 1 2 3; dog_stat 2 5 1; dog_stat 3 2 0] ∧
  before (dog_stat 1 2 3) (dog_stat 3 2 0)
    (Stats.successRanking "absolute" [dog_stat 1 2 3; dog_stat 2 5 1; dog_stat 3 2 0]).
Proof.
  assert (Hb : before (dog_stat 1 2 3) (dog_stat 3 2 0)
                 [dog_stat 1 2 3; dog_stat 2 5 1; dog_stat 3 2 0]).
  { unfold before. apply sublist_skip, sublist_cons, sublist_skip, sublist_nil. }
  split; [exact Hb|].
  apply (rankings_stable "absolute" _ _ _ Hb). reflexivity.
Defined.

(** Dogs 1 and 3 are tied on two successes; dog 2 leads, then 1, then 3. *)
Example rankings_example :
  (λ x, Stats.Dog.dogId (Stats.Dog.d x))
  <$> Stats.successRanking "absolute" [dog_stat 1 2 3; dog_stat 2 5 1; dog_stat 3 2 0]
  = [num 2; num 1; num 3].
Proof. by vm_compute. Qed.


(** * Further properties of the code *)

(** ** The numeric summary does not depend on the order of the values *)

Lemma sorted_values_perm_eq l1 l2 : l1 ≡ₚ l2 → sorted_values l1 = sorted_values l2.
Proof.
  intros Hp. apply sorted_values_unique.
  - apply StronglySorted_Sorted, sorted_values_sorted.
  - by rewrite sorted_values_perm.
Qed.

Lemma computeNumericStats_perm_eq l1 l2 :
  l1 ≡ₚ l2 → computeNumericStats l1 = computeNumericStats l2.
Proof.
  intros Hp. destruct (decide (l1 = [])) as [->|Hne].
  - by apply Permutation_nil_l in Hp as ->.
  - assert (l2 ≠ []) by (intros ->; by apply Permutation_nil_r in Hp).
    rewrite !computeNumericStats_unfold by done. cbv zeta.
    by rewrite (sorted_values_perm_eq _ _ Hp).
Qed.

(** X1. The summary of a collection depends only on which values it holds
    and how often: two arrays that are permutations of each other get the
    same mean, median and mode (or both get [null]). *)
Theorem computeNumericStats_order_irrelevant (values values' : list Qc) :
  values ≡ₚ values' → computeNumericStats values = computeNumericStats values'.
Proof.
  intros Hp. destruct (decide (values = [])) as [->|Hne].
  - by apply Permutation_nil_l in Hp as ->.
  - assert (values' ≠ []) by (intros ->; by apply Permutation_nil_r in Hp).
    rewrite !computeNumericStats_unfold by done. cbv zeta.
    assert (sorted_values values = sorted_values values') as ->; [|done].
    apply sorted_values_unique.
    + apply StronglySorted_Sorted, sorted_values_sorted.
    + by rewrite sorted_values_perm.
Qed.

Lemma computeNumericStats_order_irrelevant_witness :
  computeNumericStats [JS.Z2Qc 3; JS.Z2Qc 1; JS.Z2Qc 3; JS.Z2Qc 2] =
  computeNumericStats [JS.Z2Qc 1; JS.Z2Qc 2; JS.Z2Qc 3; JS.Z2Qc 3].
Proof.
  apply computeNumericStats_order_irrelevant.
  etrans; [apply Permutation_swap|]. apply Permutation_skip.
  etrans; [apply Permutation_skip, Permutation_swap|].
  apply Permutation_swap.
Defined.

(** ** The three figures lie between the least and the greatest value *)


Lemma nat2Qc_pos n : (0 < n)%nat → (0 < JS.nat2Qc n)%Qc.
Proof. intros Hn. apply Z2Qc_pos. lia. Qed.









(** ** The binner, case by case *)

Lemma build_cases ss fs key n :
  (conditionValues ss key = [] ∧ conditionValues fs key = [] ∧
   buildConditionDistributions ss fs key n =
   Ok {| binsSuccess := []; binsFail := []; statsSuccess := None; statsFail := None |})
  ∨ (∃ lo, is_min lo (all_values ss fs key) ∧ is_max lo (all_values ss fs key) ∧
       buildConditionDistributions ss fs key n =
       Ok {| binsSuccess :=
               [{| range := JS.toFixed1 (Fin lo);
                   count := length (conditionValues ss key) |}];
             binsFail :=
               [{| range := JS.toFixed1 (Fin lo);
                   count := length (conditionValues fs key) |}];
             statsSuccess := computeNumericStats (conditionValues ss key);
             statsFail := computeNumericStats (conditionValues fs key) |})
  ∨ (∃ lo hi, is_min lo (all_values ss fs key) ∧ is_max hi (all_values ss fs key) ∧
       lo ≠ hi ∧ 1 ≤ n ∧
       buildConditionDistributions ss fs key n =
       Ok {| binsSuccess := histogram lo hi n (conditionValues ss key);
             binsFail := histogram lo hi n (conditionValues fs key);
             statsSuccess := computeNumericStats (conditionValues ss key);
             statsFail := computeNumericStats (conditionValues fs key) |})
  ∨ (∃ lo hi, is_min lo (all_values ss fs key) ∧ is_max hi (all_values ss fs key) ∧
       lo ≠ hi ∧ n ≤ 0 ∧
       buildConditionDistributions ss fs key n = TypeError).
Proof.
  unfold all_values.
  destruct (decide (conditionValues ss key ++ conditionValues fs key = [])) as [Hnil|Hne].
  - left. apply app_eq_nil in Hnil as [Hs Hf].
    split; [done|]. split; [done|]. by apply build_both_empty.
  - right.
    destruct (Math_min_is_min _ Hne) as (lo & _ & Hmin).
    destruct (Math_max_is_max _ Hne) as (hi & _ & Hmax).
    destruct (decide (lo = hi)) as [<-|Hlh].
    + left. exists lo. split; [done|]. split; [done|]. by apply build_single.
    + right. destruct (decide (1 ≤ n)) as [Hn|Hn].
      * left. exists lo, hi. do 4 (split; [done|]). by apply build_regular.
      * right. exists lo, hi. do 3 (split; [done|]). split; [lia|].
        apply (build_no_bins _ _ _ _ lo hi); [done..|lia].
Qed.

Lemma histogram_ranges lo hi n vals vals' :
  range <$> histogram lo hi n vals = range <$> histogram lo hi n vals'.
Proof. unfold histogram. by rewrite <- !list_fmap_compose. Qed.

(** X3. Whenever the binner returns, the success bins and the fail bins are
    the same bins: the two sequences carry the same labels in the same
    order, so the two charts of the page line up bar by bar. *)
Theorem bins_aligned (successSessions failSessions : list session)
    (key : string) (binCount : Z) (d : distributions) :
  buildConditionDistributions successSessions failSessions key binCount = Ok d →
  range <$> binsSuccess d = range <$> binsFail d.
Proof.
  intros Hd.
  destruct (build_cases successSessions failSessions key binCount)
    as [(_ & _ & H)|[(lo & _ & _ & H)|[(lo & hi & _ & _ & _ & _ & H)|
        (lo & hi & _ & _ & _ & _ & H)]]];
    rewrite H in Hd; try discriminate; injection Hd as <-; cbn [binsSuccess binsFail].
  - done.
  - done.
  - apply histogram_ranges.
Qed.

Lemma bins_aligned_witness :
  ∃ d, buildConditionDistributions cohort_a cohort_b "temp" default_binCount = Ok d ∧
       range <$> binsSuccess d = range <$> binsFail d.
Proof.
  eexists. split; [vm_compute; reflexivity|].
  eapply (bins_aligned cohort_a cohort_b "temp" default_binCount).
  vm_compute. reflexivity.
Defined.



Lemma is_min_perm lo l l' : l ≡ₚ l' → is_min lo l → is_min lo l'.
Proof.
  intros Hp [Hin Hall]. split; [by rewrite <- Hp|].
  intros v Hv. apply Hall. by rewrite Hp.
Qed.

Lemma is_max_perm hi l l' : l ≡ₚ l' → is_max hi l → is_max hi l'.
Proof.
  intros Hp [Hin Hall]. split; [by rewrite <- Hp|].
  intros v Hv. apply Hall. by rewrite Hp.
Qed.

(** X5. Exchanging the two cohorts exchanges the two bin sequences and the
    two summaries, and nothing else: the bins do not depend on which cohort
    a value comes from. *)
Theorem cohorts_symmetric (successSessions failSessions : list session)
    (key : string) (binCount : Z) :
  buildConditionDistributions failSessions successSessions key binCount =
  swap_cohorts (buildConditionDistributions successSessions failSessions key binCount).
Proof.
  assert (Hp : all_values successSessions failSessions key
               ≡ₚ all_values failSessions successSessions key)
    by apply Permutation_app_comm.
  destruct (build_cases successSessions failSessions key binCount)
    as [(Hs & Hf & H)|[(lo & Hmin & Hmax & H)|[(lo & hi & Hmin & Hmax & Hne & Hn & H)|
        (lo & hi & Hmin & Hmax & Hne & Hn & H)]]]; rewrite H; cbn [swap_cohorts].
  - by apply build_both_empty.
  - apply build_single; [by eapply is_min_perm | by eapply is_max_perm].
  - apply build_regular; [by eapply is_min_perm | by eapply is_max_perm | done..].
  - apply (build_no_bins _ _ _ _ lo hi);
      [by eapply is_min_perm | by eapply is_max_perm | done..].
Qed.

Lemma histogram_perm lo hi n vals vals' :
  vals ≡ₚ vals' → histogram lo hi n vals = histogram lo hi n vals'.
Proof.
  intros Hp. unfold histogram. apply list_fmap_ext. intros _ i _.
  by rewrite Hp.
Qed.

Lemma build_values_perm ss ss' fs fs' key n :
  conditionValues ss key ≡ₚ conditionValues ss' key →
  conditionValues fs key ≡ₚ conditionValues fs' key →
  buildConditionDistributions ss fs key n = buildConditionDistributions ss' fs' key n.
Proof.
  intros Hs Hf.
  assert (Hp : all_values ss fs key ≡ₚ all_values ss' fs' key).
  { unfold all_values. by rewrite Hs, Hf. }
  destruct (build_cases ss fs key n)
    as [(Es & Ef & H)|[(lo & Hmin & Hmax & H)|[(lo & hi & Hmin & Hmax & Hne & Hn & H)|
        (lo & hi & Hmin & Hmax & Hne & Hn & H)]]]; rewrite H; symmetry.
  - rewrite Es in Hs. rewrite Ef in Hf.
    apply Permutation_nil_l in Hs, Hf. by apply build_both_empty.
  - rewrite (build_single ss' fs' key n lo);
      [|by eapply is_min_perm | by eapply is_max_perm].
    by rewrite (Permutation_length Hs), (Permutation_length Hf),
      (computeNumericStats_perm_eq _ _ Hs), (computeNumericStats_perm_eq _ _ Hf).
  - rewrite (build_regular ss' fs' key n lo hi);
      [|by eapply is_min_perm | by eapply is_max_perm | done..].
    by rewrite (histogram_perm _ _ _ _ _ Hs), (histogram_perm _ _ _ _ _ Hf),
      (computeNumericStats_perm_eq _ _ Hs), (computeNumericStats_perm_eq _ _ Hf).
  - apply (build_no_bins _ _ _ _ lo hi);
      [by eapply is_min_perm | by eapply is_max_perm | done..].
Qed.

Lemma conditionValues_perm l l' key :
  l ≡ₚ l' → conditionValues l key ≡ₚ conditionValues l' key.
Proof. intros Hp. unfold conditionValues. by rewrite Hp. Qed.

(** X6. The order of the sessions inside a cohort does not matter: whatever
    the binner does on two cohorts (bins, counts, summaries, or the
    exception), it does the same on any reordering of them. *)
Theorem binner_order_irrelevant (successSessions successSessions' : list session)
    (failSessions failSessions' : list session) (key : string) (binCount : Z) :
  successSessions ≡ₚ successSessions' → failSessions ≡ₚ failSessions' →
  buildConditionDistributions successSessions failSessions key binCount =
  buildConditionDistributions successSessions' failSessions' key binCount.
Proof.
  intros Hs Hf. apply build_values_perm; by apply conditionValues_perm.
Qed.

Lemma binner_order_irrelevant_witness :
  buildConditionDistributions cohort_a cohort_b "temp" default_binCount =
  buildConditionDistributions (reverse cohort_a) cohort_b "temp" default_binCount.
Proof.
  apply binner_order_irrelevant.
  - apply Permutation_swap.
  - reflexivity.
Defined.

Lemma histogram_no_values lo hi n :
  Forall (λ b, count b = 0%nat) (histogram lo hi n []).
Proof. unfold histogram. apply Forall_fmap, Forall_forall. by intros i _. Qed.

(** X7. A cohort without a usable value still gets the bins of the other
    one: when the fail cohort has no value for the condition and the binner
    returns, there is no fail summary, every fail bin is empty, and the
    fail bins are as many as the success bins. *)
Theorem empty_cohort_bins (successSessions failSessions : list session)
    (key : string) (binCount : Z) (d : distributions) :
  conditionValues failSessions key = [] →
  buildConditionDistributions successSessions failSessions key binCount = Ok d →
  statsFail d = None ∧
  Forall (λ b, count b = 0%nat) (binsFail d) ∧
  length (binsFail d) = length (binsSuccess d).
Proof.
  intros Hf Hd.
  destruct (build_cases successSessions failSessions key binCount)
    as [(_ & _ & H)|[(lo & _ & _ & H)|[(lo & hi & _ & _ & _ & _ & H)|
        (lo & hi & _ & _ & _ & _ & H)]]];
    rewrite H in Hd; try discriminate; injection Hd as <-;
    cbn [binsSuccess binsFail statsFail]; rewrite ?Hf.
  - done.
  - split; [done|]. split; [|done]. by repeat constructor.
  - split; [done|]. split; [apply histogram_no_values|].
    unfold histogram. by rewrite !length_fmap.
Qed.

Lemma empty_cohort_bins_witness :
  ∃ d, buildConditionDistributions cohort_a [] "temp" default_binCount = Ok d ∧
       statsFail d = None ∧
       Forall (λ b, count b = 0%nat) (binsFail d) ∧
       length (binsFail d) = length (binsSuccess d).
Proof.
  eexists. split; [vm_compute; reflexivity|].
  eapply (empty_cohort_bins cohort_a [] "temp" default_binCount).
  - reflexivity.
  - vm_compute. reflexivity.
Defined.

(** ** The dog page: cohorts and rates *)

Lemma failSessions_complement sessions :
  RecordDetail.failSessions sessions = filter (λ s, ¬ is_success s) sessions.
Proof.
  unfold RecordDetail.failSessions, is_success. apply list_filter_iff.
  intros s. destruct (isSuccessResult (result s)); simpl; split; congruence.
Qed.

Lemma cohorts_perm sessions :
  RecordDetail.successSessions sessions ++ RecordDetail.failSessions sessions
  ≡ₚ sessions.
Proof. rewrite failSessions_complement. apply filter_app_complement. Qed.

Lemma cohorts_length sessions :
  (length (RecordDetail.successSessions sessions) +
   length (RecordDetail.failSessions sessions))%nat = length sessions.
Proof. by rewrite <- length_app, cohorts_perm. Qed.

(** X8. The two cohorts of the dog page split the sessions: every session
    is in exactly one of them, the success cohort holds the sessions whose
    result is a success and the fail cohort all the others (also those
    without a result), both in the order of the sessions, and their sizes
    add up to the number of sessions. *)
Theorem cohorts_partition (sessions : list session) :
  (∀ s, s ∈ RecordDetail.successSessions sessions ↔ s ∈ sessions ∧ is_success s) ∧
  (∀ s, s ∈ RecordDetail.failSessions sessions ↔ s ∈ sessions ∧ ¬ is_success s) ∧
  RecordDetail.successSessions sessions `sublist_of` sessions ∧
  RecordDetail.failSessions sessions `sublist_of` sessions ∧
  RecordDetail.successSessions sessions ++ RecordDetail.failSessions sessions
    ≡ₚ sessions ∧
  (length (RecordDetail.successSessions sessions) +
   length (RecordDetail.failSessions sessions))%nat
    = RecordDetail.totalSessions sessions.
Proof.
  split; [|split; [|split; [|split; [|split]]]].
  - intros s. unfold RecordDetail.successSessions, is_success.
    rewrite list_elem_of_filter. tauto.
  - intros s. rewrite failSessions_complement, list_elem_of_filter. tauto.
  - apply sublist_filter.
  - apply sublist_filter.
  - apply cohorts_perm.
  - apply cohorts_length.
Qed.

Lemma Qcle_shift (a b c d : Qc) : (b - a = d - c)%Qc → (c ≤ d)%Qc → (a ≤ b)%Qc.
Proof.
  intros E H. apply Qcle_minus_iff. apply Qcle_minus_iff in H.
  unfold Qcminus in E. by rewrite E.
Qed.

Lemma Qclt_shift (a b c d : Qc) : (b - a = d - c)%Qc → (c < d)%Qc → (a < b)%Qc.
Proof.
  intros E H. apply Qclt_minus_iff. apply Qclt_minus_iff in H.
  unfold Qcminus in E. by rewrite E.
Qed.

Lemma nat2Qc_nonneg n : (0 ≤ JS.nat2Qc n)%Qc.
Proof.
  unfold JS.nat2Qc. rewrite <- Z2Qc_inj_0. apply (proj1 (Z2Qc_inj_le _ _)). lia.
Qed.

Lemma nat2Qc_add a b : JS.nat2Qc (a + b) = (JS.nat2Qc a + JS.nat2Qc b)%Qc.
Proof. unfold JS.nat2Qc. by rewrite Nat2Z.inj_add, Z2Qc_inj_add. Qed.

Lemma percent_nonneg (a b : nat) :
  (0 < b)%nat → (0 ≤ JS.nat2Qc a / JS.nat2Qc b * JS.Z2Qc 100)%Qc.
Proof.
  intros Hb. rewrite <- (Qcmult_0_l (JS.Z2Qc 100)) at 1. apply Qcmult_le_compat_r.
  - apply Qcle_div_iff; [by apply nat2Qc_pos|].
    rewrite Qcmult_0_l. apply nat2Qc_nonneg.
  - rewrite <- Z2Qc_inj_0. by apply (proj1 (Z2Qc_inj_le _ _)).
Qed.

Lemma percent_complement (a b : nat) :
  (0 < a + b)%nat →
  (JS.Z2Qc 100 - JS.nat2Qc a / JS.nat2Qc (a + b) * JS.Z2Qc 100)%Qc
  = (JS.nat2Qc b / JS.nat2Qc (a + b) * JS.Z2Qc 100)%Qc.
Proof.
  intros Hab. pose proof (nat2Qc_pos _ Hab) as Hpos.
  rewrite nat2Qc_add in *. field.
  intros E. by apply Qclt_not_eq in Hpos.
Qed.

(** X9. The two rates of the dog page.  Without sessions both are 0.
    Otherwise the success rate is the share of the success cohort in
    percent, the fail rate (computed as 100 minus the success rate) is the
    share of the fail cohort in percent, both lie between 0 and 100, and
    they add up to 100. *)
Theorem rates_complementary (sessions : list session) :
  (sessions = [] →
     RecordDetail.successRate sessions = 0%Qc ∧ RecordDetail.failRate sessions = 0%Qc) ∧
  (sessions ≠ [] →
     RecordDetail.successRate sessions =
       (JS.nat2Qc (length (RecordDetail.successSessions sessions))
        / JS.nat2Qc (length sessions) * JS.Z2Qc 100)%Qc ∧
     RecordDetail.failRate sessions =
       (JS.nat2Qc (length (RecordDetail.failSessions sessions))
        / JS.nat2Qc (length sessions) * JS.Z2Qc 100)%Qc ∧
     (RecordDetail.successRate sessions + RecordDetail.failRate sessions)%Qc
       = JS.Z2Qc 100 ∧
     (0 ≤ RecordDetail.successRate sessions)%Qc ∧
     (RecordDetail.successRate sessions ≤ JS.Z2Qc 100)%Qc ∧
     (0 ≤ RecordDetail.failRate sessions)%Qc ∧
     (RecordDetail.failRate sessions ≤ JS.Z2Qc 100)%Qc).
Proof.
  split.
  - by intros ->.
  - intros Hne.
    assert (Hpos : (0 < length sessions)%nat) by (destruct sessions; [done|simpl; lia]).
    unfold RecordDetail.failRate, RecordDetail.successRate, RecordDetail.totalSessions.
    destruct (Nat.eqb_spec (length sessions) 0) as [E|_]; [lia|].
    pose proof (cohorts_length sessions) as Hlen.
    set (a := length (RecordDetail.successSessions sessions)) in *.
    set (b := length (RecordDetail.failSessions sessions)) in *.
    rewrite <- Hlen in *.
    rewrite (percent_complement a b Hpos).
    pose proof (percent_nonneg a (a + b) Hpos) as Ha.
    pose proof (percent_nonneg b (a + b) Hpos) as Hb.
    assert (Hsum : (JS.nat2Qc a / JS.nat2Qc (a + b) * JS.Z2Qc 100 +
                    JS.nat2Qc b / JS.nat2Qc (a + b) * JS.Z2Qc 100)%Qc = JS.Z2Qc 100).
    { rewrite <- (percent_complement a b Hpos). ring. }
    set (A := (JS.nat2Qc a / JS.nat2Qc (a + b) * JS.Z2Qc 100)%Qc) in *.
    set (B := (JS.nat2Qc b / JS.nat2Qc (a + b) * JS.Z2Qc 100)%Qc) in *.
    do 3 (split; [done|]). split; [done|]. split; [|split; [done|]].
    + rewrite <- Hsum. apply (Qcle_shift _ _ 0%Qc B); [ring|exact Hb].
    + rewrite <- Hsum. apply (Qcle_shift _ _ 0%Qc A); [ring|exact Ha].
Qed.




(** ** The dog page: the distributions of the selected condition *)



(** ** The rankings of the statistics page *)

Lemma ranking_perm key (stats : list Stats.Dog.stat) : Stats.ranking key stats ≡ₚ stats.
Proof.
  unfold Stats.ranking. destruct stats as [|x l]; [done|].
  change (length (x :: l) =? 0)%nat with false. cbv iota. apply Array_sort_perm.
Qed.

Lemma StronglySorted_weaken {A} (R1 R2 : relation A) (l : list A) :
  (∀ x y, R1 x y → R2 x y) → StronglySorted R1 l → StronglySorted R2 l.
Proof.
  intros HR Hs. rewrite <- (list_fmap_id l). by apply (StronglySorted_fmap id R1 R2).
Qed.

Lemma ranking_descending key (stats : list Stats.Dog.stat) :
  StronglySorted (λ a b, (Stats.field key b ≤ Stats.field key a)%Qc)
    (Stats.ranking key stats).
Proof.
  unfold Stats.ranking. destruct stats as [|x l]; [constructor|].
  change (length (x :: l) =? 0)%nat with false. cbv iota.
  eapply StronglySorted_weaken;
    [|apply (Array_sort_sorted _ (λ a, (- Stats.field key a)%Qc))].
  - intros a b Hab. unfold by_key in Hab.
    apply Qcopp_le_compat in Hab. by rewrite !Qcopp_involutive in Hab.
  - intros a b. rewrite Qc_cmp_minus. split; intros Hlt.
    + eapply Qclt_shift; [|exact Hlt]. ring.
    + eapply Qclt_shift; [|exact Hlt]. ring.
Qed.

(** X12. Each ranking of the statistics page holds every row of
    [perDogStats] exactly once, in descending order of the figure it is
    sorted by: the number of successes (or of false positives) in absolute
    mode, the rate otherwise. *)
Theorem rankings_sorted (dogTableMode : string) (perDogStats : list Stats.Dog.stat) :
  Stats.successRanking dogTableMode perDogStats ≡ₚ perDogStats ∧
  StronglySorted
    (λ a b, (Stats.field (Stats.sortKeySuccess dogTableMode) b
             ≤ Stats.field (Stats.sortKeySuccess dogTableMode) a)%Qc)
    (Stats.successRanking dogTableMode perDogStats) ∧
  Stats.failRanking dogTableMode perDogStats ≡ₚ perDogStats ∧
  StronglySorted
    (λ a b, (Stats.field (Stats.sortKeyFail dogTableMode) b
             ≤ Stats.field (Stats.sortKeyFail dogTableMode) a)%Qc)
    (Stats.failRanking dogTableMode perDogStats).
Proof.
  unfold Stats.successRanking, Stats.failRanking.
  split; [apply ranking_perm|]. split; [apply ranking_descending|].
  split; [apply ranking_perm|apply ranking_descending].
Qed.

Lemma successValues_field mode stats :
  successValuesForStats mode stats =
  Stats.field (Stats.sortKeySuccess mode) <$> Stats.successRanking mode stats.
Proof.
  unfold successValuesForStats, Stats.sortKeySuccess.
  apply list_fmap_ext. intros _ x _. by case_bool_decide.
Qed.

Lemma failValues_field mode stats :
  failValuesForStats mode stats =
  Stats.field (Stats.sortKeyFail mode) <$> Stats.failRanking mode stats.
Proof.
  unfold failValuesForStats, Stats.sortKeyFail.
  apply list_fmap_ext. intros _ x _. by case_bool_decide.
Qed.

(** X13. The summary shown under a ranking is the summary of the figure the
    ranking is sorted by, taken over all the rows of [perDogStats]; sorting
    the rows first changes nothing.  It is [null] exactly when there is no
    row. *)
Theorem ranking_summaries (dogTableMode : string) (perDogStats : list Stats.Dog.stat) :
  successStatsGlobal dogTableMode perDogStats =
    computeNumericStats (Stats.field (Stats.sortKeySuccess dogTableMode) <$> perDogStats) ∧
  failStatsGlobal dogTableMode perDogStats =
    computeNumericStats (Stats.field (Stats.sortKeyFail dogTableMode) <$> perDogStats) ∧
  (successStatsGlobal dogTableMode perDogStats = None ↔ perDogStats = []) ∧
  (failStatsGlobal dogTableMode perDogStats = None ↔ perDogStats = []).
Proof.
  assert (Hs : successStatsGlobal dogTableMode perDogStats =
    computeNumericStats (Stats.field (Stats.sortKeySuccess dogTableMode) <$> perDogStats)).
  { unfold successStatsGlobal. rewrite successValues_field.
    apply computeNumericStats_perm_eq, fmap_Permutation, ranking_perm. }
  assert (Hf : failStatsGlobal dogTableMode perDogStats =
    computeNumericStats (Stats.field (Stats.sortKeyFail dogTableMode) <$> perDogStats)).
  { unfold failStatsGlobal. rewrite failValues_field.
    apply computeNumericStats_perm_eq, fmap_Permutation, ranking_perm. }
  rewrite Hs, Hf. do 2 (split; [done|]).
  split; (split; [|by intros ->]); destruct perDogStats as [|x l]; try done;
    intros E; rewrite computeNumericStats_unfold in E; done.
Qed.

(** ** The rows of the dogs *)

Section grouping_first_facts.
Context {X K V : Type} `{EqDecision K}.
Variables (keyOf : X → K) (init : X → V) (hit : X → V → V).

Lemma group_first_get xs k :
  JsMap.get (foldl (group_step_first keyOf init hit) [] xs) k =
  match filter (λ x, keyOf x = k) xs with
  | [] => None
  | x0 :: l => Some (foldl (λ v x, hit x v) (init x0) (x0 :: l))
  end.
Proof.
  induction xs as [|x xs IH] using rev_ind; [done|].
  rewrite foldl_app. cbn [foldl]. rewrite filter_app, filter_cons, filter_nil.
  unfold group_step_first at 1. rewrite get_upsert.
  destruct (decide (keyOf x = k)) as [Hk|Hk].
  - rewrite Hk, IH. destruct (filter _ xs) as [|x0 l]; [done|].
    cbn [app]. by rewrite foldl_app.
  - rewrite app_nil_r. apply IH.
Qed.

Lemma group_first_keys_NoDup xs :
  NoDup (JsMap.keys (foldl (group_step_first keyOf init hit) [] xs)).
Proof.
  induction xs as [|x xs IH] using rev_ind; [constructor|].
  rewrite foldl_app. cbn [foldl]. unfold group_step_first at 1.
  rewrite keys_upsert. unfold JsMap.has.
  destruct (JsMap.get _ (keyOf x)) eqn:Hk; [done|].
  apply NoDup_app. split; [done|]. split; [|apply NoDup_singleton].
  intros y Hy ->%list_elem_of_singleton. by apply get_None_keys in Hk.
Qed.

Lemma group_first_keys_elem xs k :
  k ∈ JsMap.keys (foldl (group_step_first keyOf init hit) [] xs)
  ↔ ∃ x, x ∈ xs ∧ keyOf x = k.
Proof.
  pose proof (group_first_get xs k) as Hget.
  destruct (filter (λ x, keyOf x = k) xs) as [|x0 l] eqn:E.
  - apply get_None_keys in Hget. split; [done|].
    intros (x & Hx & Hkx). exfalso.
    eapply (filter_nil_not_elem_of _ xs x); [exact E|exact Hkx|exact Hx].
  - split.
    + intros _. exists x0. apply and_comm.
      apply (list_elem_of_filter (λ x, keyOf x = k) xs). rewrite E. by left.
    + intros _. destruct (decide (k ∈ JsMap.keys
        (foldl (group_step_first keyOf init hit) [] xs))) as [|Hn]; [done|].
      apply get_None_keys in Hn. congruence.
Qed.

Lemma group_first_entries xs k v :
  (k, v) ∈ foldl (group_step_first keyOf init hit) [] xs →
  ∃ x0 l, filter (λ x, keyOf x = k) xs = x0 :: l ∧
          v = foldl (λ v x, hit x v) (init x0) (x0 :: l).
Proof.
  intros Hin. apply elem_of_get in Hin; [|apply group_first_keys_NoDup].
  rewrite group_first_get in Hin.
  destruct (filter _ xs) as [|x0 l]; [done|]. exists x0, l. split; [done|congruence].
Qed.
End grouping_first_facts.

Lemma perDogMap_fold a l :
  Stats.perDogMap (foldl Stats.session_step a l) =
  foldl (group_step_first dog_key dog_init dog_hit) (Stats.perDogMap a) l.
Proof.
  revert a. induction l as [|s l IH]; intros a; [done|].
  cbn [foldl]. by rewrite IH.
Qed.

Lemma perDogStats_eq sessions :
  Stats.perDogStats (Stats.processSessions sessions) =
  dog_row <$> JsMap.values (foldl (group_step_first dog_key dog_init dog_hit) [] sessions).
Proof.
  unfold Stats.processSessions. destruct sessions as [|s l]; [done|].
  change (length (s :: l) =? 0)%nat with false. cbv iota zeta.
  cbn [Stats.perDogStats]. by rewrite perDogMap_fold.
Qed.

Lemma totalDogs_eq sessions :
  Stats.k_totalDogs (Stats.globalKpis (Stats.processSessions sessions)) =
  length (foldl (group_step_first dog_key dog_init dog_hit) [] sessions).
Proof.
  unfold Stats.processSessions. destruct sessions as [|s l]; [done|].
  change (length (s :: l) =? 0)%nat with false. cbv iota zeta.
  cbn [Stats.globalKpis Stats.k_totalDogs]. by rewrite perDogMap_fold.
Qed.

Lemma dog_fold_fields s0 l :
  let e := foldl (λ v x, dog_hit x v) (dog_init s0) l in
  Stats.Dog.dogId e = dog_key s0 ∧
  Stats.Dog.name e = dog_label s0 ∧
  Stats.Dog.code e = dog_code_of s0 ∧
  Stats.Dog.total e = length l ∧
  Stats.Dog.success e = length (filter is_success l) ∧
  Stats.Dog.fail e = length (filter (λ s, ¬ is_success s) l).
Proof.
  induction l as [|s l IH] using rev_ind; [done|].
  cbv zeta in *. rewrite foldl_app. cbn [foldl].
  destruct IH as (H1 & H2 & H3 & H4 & H5 & H6).
  destruct (count_success_snoc s l) as [-> ->]. rewrite length_app.
  set (e0 := foldl _ _ l) in *. unfold dog_hit, Stats.Dog.hit.
  cbn [Stats.Dog.dogId Stats.Dog.name Stats.Dog.code Stats.Dog.total
       Stats.Dog.success Stats.Dog.fail].
  rewrite H1, H2, H3, H4, H5, H6.
  destruct (isSuccessResult (result s)); simpl; (do 3 (split; [done|]); lia).
Qed.




(** Two sessions of dog 1 and one of dog 2: two rows, in the order met;
    dog 1 keeps the name of its first session. *)
Example per_dog_rows_example :
  (λ st, (Stats.Dog.dogId (Stats.Dog.d st), Stats.Dog.name (Stats.Dog.d st),
          Stats.Dog.total (Stats.Dog.d st), Stats.Dog.success (Stats.Dog.d st)))
  <$> Stats.perDogStats (Stats.processSessions
        [dog_session 1 "Rex" "success"; dog_session 2 "Luna" "fail";
         dog_session 1 "Rexy" "Success"])
  = [(num 1, JStr "Rex", 2%nat, 2%nat); (num 2, JStr "Luna", 1%nat, 0%nat)].
Proof. by vm_compute. Qed.

(** ** Counts of the groups add up to the counts of the summary *)

Lemma sum_list_snoc (l : list nat) (n : nat) :
  sum_list (l ++ [n]) = (sum_list l + n)%nat.
Proof. induction l as [|x l IH]; simpl; lia. Qed.

Lemma sum_list_perm (l l' : list nat) : l ≡ₚ l' → sum_list l = sum_list l'.
Proof. induction 1; simpl; lia. Qed.

Section jsmap_sums.
Context {K V : Type} `{EqDecision K}.
Variable w : V → nat.

Lemma sum_values_set_new (m : list (K * V)) k v :
  JsMap.get m k = None →
  sum_list (w <$> JsMap.values (JsMap.set m k v))
  = (sum_list (w <$> JsMap.values m) + w v)%nat.
Proof.
  unfold JsMap.values. induction m as [|[k0 v0] m IH]; csimpl; [lia|].
  case_decide; [done|]. intros Hm. csimpl. rewrite IH by done. lia.
Qed.

Lemma sum_values_update (m : list (K * V)) k f δ v :
  (∀ v, w (f v) = (w v + δ)%nat) → JsMap.get m k = Some v →
  sum_list (w <$> JsMap.values (JsMap.update m k f))
  = (sum_list (w <$> JsMap.values m) + δ)%nat.
Proof.
  intros Hw. unfold JsMap.values. induction m as [|[k0 v0] m IH]; csimpl; [done|].
  case_decide; csimpl.
  - intros _. rewrite Hw. lia.
  - intros Hm. rewrite IH by done. lia.
Qed.

Lemma sum_values_upsert (m : list (K * V)) k init f δ :
  (∀ v, w (f v) = (w v + δ)%nat) → w init = 0%nat →
  sum_list (w <$> JsMap.values (JsMap.upsert m k init f))
  = (sum_list (w <$> JsMap.values m) + δ)%nat.
Proof.
  intros Hw Hinit. unfold JsMap.upsert, JsMap.has.
  destruct (JsMap.get m k) as [v|] eqn:Hk.
  - by apply (sum_values_update _ _ _ _ v).
  - rewrite (sum_values_update _ _ _ δ init); [|done|].
    + rewrite sum_values_set_new by done. lia.
    + rewrite get_set. by rewrite decide_True.
Qed.
End jsmap_sums.

Section grouping_sums.
Context {X K V : Type} `{EqDecision K}.
Variables (w : V → nat) (δ : X → nat) (hit : X → V → V).
Hypothesis hit_adds : ∀ x v, w (hit x v) = (w v + δ x)%nat.

Lemma group_first_sum (keyOf : X → K) (init : X → V) xs :
  (∀ x, w (init x) = 0%nat) →
  sum_list (w <$> JsMap.values (foldl (group_step_first keyOf init hit) [] xs))
  = sum_list (δ <$> xs).
Proof.
  intros Hinit. induction xs as [|x xs IH] using rev_ind; [done|].
  rewrite foldl_app, fmap_app. cbn [foldl]. csimpl.
  rewrite sum_list_snoc, <- IH. unfold group_step_first at 1.
  by apply sum_values_upsert.
Qed.

Lemma group_sum (keyOf : X → option K) (init : K → V) xs :
  (∀ k, w (init k) = 0%nat) →
  sum_list (w <$> JsMap.values (foldl (group_step keyOf init hit) [] xs))
  = sum_list (δ <$> filter (λ x, is_Some (keyOf x)) xs).
Proof.
  intros Hinit. induction xs as [|x xs IH] using rev_ind; [done|].
  rewrite foldl_app, filter_app, fmap_app. cbn [foldl].
  rewrite filter_cons, filter_nil. unfold group_step at 1.
  destruct (keyOf x) as [k|] eqn:Hk.
  - rewrite decide_True by done. csimpl. rewrite sum_list_snoc, <- IH.
    by apply sum_values_upsert.
  - rewrite decide_False by (by intros [? ?]). csimpl. by rewrite app_nil_r.
Qed.
End grouping_sums.

Lemma sum_ones {A} (l : list A) : sum_list ((λ _, 1%nat) <$> l) = length l.
Proof. rewrite sum_list_fmap_const. lia. Qed.

Lemma sum_fail_flags (l : list session) :
  sum_list ((λ s, if isSuccessResult (result s) then 0%nat else 1%nat) <$> l)
  = length (filter (λ s, ¬ is_success s) l).
Proof.
  induction l as [|s l IH]; [done|].
  destruct (count_success_cons s l) as [_ ->]. csimpl. by rewrite IH.
Qed.

Lemma sum_success_flags (l : list session) :
  sum_list ((λ s, if isSuccessResult (result s) then 1%nat else 0%nat) <$> l)
  = length (filter is_success l).
Proof.
  induction l as [|s l IH]; [done|].
  destruct (count_success_cons s l) as [-> _]. csimpl. by rewrite IH.
Qed.

Lemma length_conditionValues sessions key :
  length (conditionValues sessions key)
  = length (filter (λ s, is_Some (getConditionValue s key)) sessions).
Proof.
  unfold conditionValues. induction sessions as [|s l IH]; [done|].
  csimpl. rewrite filter_cons.
  destruct (getConditionValue s key) as [q|] eqn:E.
  - rewrite decide_True by done. simpl. by rewrite IH.
  - rewrite decide_False by (by intros [? ?]). done.
Qed.

Lemma dog_row_entries (vs : list Stats.Dog.entry) :
  Stats.Dog.d <$> (dog_row <$> vs) = vs.
Proof. induction vs as [|v vs IH]; csimpl; [done|]. by rewrite IH. Qed.

Lemma scent_row_entries (vs : list Stats.Scent.entry) :
  Stats.Scent.s <$>
    ((λ s, {| Stats.Scent.s := s;
              Stats.Scent.successRate :=
                Stats.rounded_rate (Stats.Scent.success s) (Stats.Scent.total s) |})
     <$> vs) = vs.
Proof. induction vs as [|v vs IH]; csimpl; [done|]. by rewrite IH. Qed.

(** X15. The tables of the statistics page account for every session once.
    The totals of the rows of the dogs add up to the number of sessions,
    and so do the totals of the rows of the scents; their successes and
    their false positives add up to those of all the sessions.  For each
    recognized condition the totals of the points of its series add up to
    the number of sessions with a usable value for it. *)
Theorem group_totals (sessions : list session) :
  let st := Stats.processSessions sessions in
  let entries := Stats.Dog.d <$> Stats.perDogStats st in
  let scents := Stats.Scent.s <$> Stats.scentStats st in
  sum_list (Stats.Dog.total <$> entries) = length sessions ∧
  sum_list (Stats.Dog.success <$> entries) = length (filter is_success sessions) ∧
  sum_list (Stats.Dog.fail <$> entries)
    = Stats.k_totalFails (Stats.globalKpis st) ∧
  sum_list (Stats.Scent.total <$> scents) = length sessions ∧
  sum_list (Stats.Scent.success <$> scents) = length (filter is_success sessions) ∧
  sum_list (Stats.Scent.fail <$> scents)
    = Stats.k_totalFails (Stats.globalKpis st) ∧
  Stats.k_totalSessions (Stats.globalKpis st) = length sessions ∧
  ∀ key, key ∈ recognized_keys →
    sum_list ((λ p, Stats.Cond.total (Stats.Cond.e p))
              <$> Stats.series_of (Stats.conditionSeries st) key)
    = length (conditionValues sessions key).
Proof.
  cbv zeta. destruct (kpis_counts sessions) as (Hk1 & Hk2 & _). rewrite Hk1, Hk2.
  rewrite perDogStats_eq, scentStats_eq, dog_row_entries, scent_row_entries.
  split; [|split; [|split; [|split; [|split; [|split; [|split; [done|]]]]]]].
  - rewrite (group_first_sum _ (λ _, 1%nat));
      [apply sum_ones|intros s e; simpl; lia|done].
  - rewrite (group_first_sum _
      (λ s, if isSuccessResult (result s) then 1%nat else 0%nat));
      [apply sum_success_flags| |done].
    intros s e. unfold dog_hit. simpl. destruct (isSuccessResult (result s)); lia.
  - rewrite (group_first_sum _
      (λ s, if isSuccessResult (result s) then 0%nat else 1%nat));
      [apply sum_fail_flags| |done].
    intros s e. unfold dog_hit. simpl. destruct (isSuccessResult (result s)); lia.
  - rewrite (group_sum _ (λ _, 1%nat)); [|intros s e; simpl; lia|done].
    rewrite sum_ones. f_equal. by apply filter_all.
  - rewrite (group_sum _
      (λ s, if isSuccessResult (result s) then 1%nat else 0%nat)); [| |done].
    + rewrite filter_all by done. apply sum_success_flags.
    + intros s e. unfold scent_hit. simpl. destruct (isSuccessResult (result s)); lia.
  - rewrite (group_sum _
      (λ s, if isSuccessResult (result s) then 0%nat else 1%nat)); [| |done].
    + rewrite filter_all by done. apply sum_fail_flags.
    + intros s e. unfold scent_hit. simpl. destruct (isSuccessResult (result s)); lia.
  - intros key Hkey. rewrite (series_eq _ _ Hkey).
    rewrite (sum_list_perm _ _ (fmap_Permutation _ _ _ (buildSeries_perm _))).
    rewrite <- list_fmap_compose.
    rewrite (group_sum _ (λ _, 1%nat)); [|intros s e; simpl; lia|done].
    by rewrite sum_ones, length_conditionValues.
Qed.

(** ** The aggregator and the order of the sessions *)

Section grouping_perm.
Context {X K V : Type} `{EqDecision K}.
Variables (keyOf : X → option K) (init : K → V) (hit : X → V → V).
(** The entry of a key depends on its sessions, not on their order. *)
Hypothesis hit_perm : ∀ k l l',
  l ≡ₚ l' →
  foldl (λ v x, hit x v) (init k) l = foldl (λ v x, hit x v) (init k) l'.

Lemma group_values_keys xs :
  JsMap.values (foldl (group_step keyOf init hit) [] xs) =
  (λ k, foldl (λ v x, hit x v) (init k) (members keyOf k xs))
  <$> JsMap.keys (foldl (group_step keyOf init hit) [] xs).
Proof.
  unfold JsMap.values, JsMap.keys. rewrite <- list_fmap_compose.
  apply list_fmap_ext. intros i [k v] Hi. simpl.
  by apply list_elem_of_lookup_2, group_entries in Hi as [_ ->].
Qed.

Lemma group_keys_perm xs xs' :
  xs ≡ₚ xs' →
  JsMap.keys (foldl (group_step keyOf init hit) [] xs)
  ≡ₚ JsMap.keys (foldl (group_step keyOf init hit) [] xs').
Proof.
  intros Hp. apply NoDup_Permutation; [apply group_keys_NoDup..|].
  intros k. rewrite !group_keys_elem. by setoid_rewrite Hp.
Qed.

Lemma group_values_perm xs xs' :
  xs ≡ₚ xs' →
  JsMap.values (foldl (group_step keyOf init hit) [] xs)
  ≡ₚ JsMap.values (foldl (group_step keyOf init hit) [] xs').
Proof.
  intros Hp.
  assert (E : ∀ ks : list K,
    (λ k, foldl (λ v x, hit x v) (init k) (members keyOf k xs)) <$> ks
    = (λ k, foldl (λ v x, hit x v) (init k) (members keyOf k xs')) <$> ks).
  { intros ks. apply list_fmap_ext. intros _ k _.
    apply hit_perm. unfold members. by rewrite Hp. }
  rewrite !group_values_keys, E. by rewrite (group_keys_perm _ _ Hp).
Qed.
End grouping_perm.

Lemma scent_fold_perm k (l l' : list session) :
  l ≡ₚ l' →
  foldl (λ v x, scent_hit x v) (scent_init k) l
  = foldl (λ v x, scent_hit x v) (scent_init k) l'.
Proof.
  intros Hp.
  destruct (scent_fold_fields k l) as (H1 & H2 & H3 & H4).
  destruct (scent_fold_fields k l') as (H1' & H2' & H3' & H4').
  destruct (foldl _ _ l) as [a1 a2 a3 a4], (foldl _ _ l') as [b1 b2 b3 b4].
  simpl in *. subst. by rewrite Hp.
Qed.

Lemma cond_fold_perm q (l l' : list session) :
  l ≡ₚ l' →
  foldl (λ v x, cond_hit x v) (cond_init q) l
  = foldl (λ v x, cond_hit x v) (cond_init q) l'.
Proof.
  intros Hp.
  destruct (cond_fold_fields q l) as (H1 & H2 & H3 & H4).
  destruct (cond_fold_fields q l') as (H1' & H2' & H3' & H4').
  destruct (foldl _ _ l) as [a1 a2 a3 a4], (foldl _ _ l') as [b1 b2 b3 b4].
  simpl in *. subst. by rewrite Hp.
Qed.

Lemma cond_values_keys sessions key :
  let m := foldl (group_step (λ s, getConditionValue s key) cond_init cond_hit)
             [] sessions in
  Stats.Cond.value <$> JsMap.values m = JsMap.keys m.
Proof.
  cbv zeta. unfold JsMap.values, JsMap.keys. rewrite <- list_fmap_compose.
  apply list_fmap_ext. intros i [k e] Hi. simpl.
  apply list_elem_of_lookup_2, group_entries in Hi as [_ ->].
  apply cond_fold_fields.
Qed.

Lemma NoDup_fmap_inj_on {A B} (f : A → B) (l : list A) x y :
  NoDup (f <$> l) → x ∈ l → y ∈ l → f x = f y → x = y.
Proof.
  induction l as [|a l IH]; csimpl; [by intros _ ?%elem_of_nil|].
  intros [Ha Hnd]%NoDup_cons [->|Hx]%elem_of_cons [->|Hy]%elem_of_cons Hf.
  - done.
  - destruct Ha. rewrite Hf. by apply list_elem_of_fmap_2.
  - destruct Ha. rewrite <- Hf. by apply list_elem_of_fmap_2.
  - by apply IH.
Qed.

Lemma buildSeries_order sessions sessions' key :
  sessions ≡ₚ sessions' →
  Stats.buildSeries
    (foldl (group_step (λ s, getConditionValue s key) cond_init cond_hit) [] sessions)
  = Stats.buildSeries
      (foldl (group_step (λ s, getConditionValue s key) cond_init cond_hit) [] sessions').
Proof.
  intros Hp.
  set (m := foldl _ [] sessions). set (m' := foldl _ [] sessions').
  assert (Hperm : Stats.buildSeries m ≡ₚ Stats.buildSeries m').
  { rewrite !buildSeries_perm. apply fmap_Permutation.
    by apply group_values_perm; [apply cond_fold_perm|]. }
  assert (Hnd : NoDup (point_value <$> Stats.buildSeries m)).
  { rewrite buildSeries_perm, <- list_fmap_compose.
    change (point_value ∘ cond_point) with Stats.Cond.value.
    unfold m. rewrite cond_values_keys. apply group_keys_NoDup. }
  apply (StronglySorted_unique_strong (by_key point_value)); [| | |done].
  - intros x1 x2 H1 H2 H12 H21. rewrite <- Hperm in H2.
    apply (NoDup_fmap_inj_on point_value _ _ _ Hnd H1 H2).
    by apply Qcle_antisym.
  - unfold Stats.buildSeries. apply (Array_sort_sorted _ point_value).
    intros a b. apply Qc_cmp_minus.
  - unfold Stats.buildSeries. apply (Array_sort_sorted _ point_value).
    intros a b. apply Qc_cmp_minus.
Qed.

Lemma series_keys (cs cs' : Stats.series) :
  (∀ key, key ∈ recognized_keys → Stats.series_of cs key = Stats.series_of cs' key) →
  cs = cs'.
Proof.
  intros Hk. destruct cs as [a b c d], cs' as [a' b' c' d'].
  pose proof (Hk "temp") as H1. pose proof (Hk "hum") as H2.
  pose proof (Hk "press") as H3. pose proof (Hk "wind") as H4.
  unfold recognized_keys, Stats.series_of in *. simpl in *.
  rewrite H1, H2, H3, H4; [done|rewrite !elem_of_cons; tauto..].
Qed.

(** X16. The statistics page does not depend on the order in which the
    sessions arrive: for two orders of the same sessions the summary
    figures are the same (with the number of dogs), the four series are the
    same point for point, and the table of the scents has the same rows,
    possibly in another order. *)
Theorem aggregates_order_irrelevant (sessions sessions' : list session) :
  sessions ≡ₚ sessions' →
  Stats.globalKpis (Stats.processSessions sessions)
    = Stats.globalKpis (Stats.processSessions sessions') ∧
  Stats.conditionSeries (Stats.processSessions sessions)
    = Stats.conditionSeries (Stats.processSessions sessions') ∧
  Stats.scentStats (Stats.processSessions sessions)
    ≡ₚ Stats.scentStats (Stats.processSessions sessions').
Proof.
  intros Hp. split; [|split].
  - destruct (kpis_counts sessions) as (H1 & H2 & H3).
    destruct (kpis_counts sessions') as (H1' & H2' & H3').
    pose proof (totalDogs_eq sessions) as H4.
    pose proof (totalDogs_eq sessions') as H4'.
    destruct (Stats.globalKpis (Stats.processSessions sessions)) as [a1 a2 a3 a4].
    destruct (Stats.globalKpis (Stats.processSessions sessions')) as [b1 b2 b3 b4].
    simpl in *. subst.
    assert (Hd : length (foldl (group_step_first dog_key dog_init dog_hit) [] sessions)
               = length (foldl (group_step_first dog_key dog_init dog_hit) [] sessions')).
    { rewrite <- (length_fmap fst (foldl _ [] sessions)),
        <- (length_fmap fst (foldl _ [] sessions')).
      apply Permutation_length, NoDup_Permutation;
        [apply group_first_keys_NoDup..|].
      intros k. fold (JsMap.keys (foldl (group_step_first dog_key dog_init dog_hit)
                                    [] sessions)).
      fold (JsMap.keys (foldl (group_step_first dog_key dog_init dog_hit)
                          [] sessions')).
      rewrite !group_first_keys_elem. by setoid_rewrite Hp. }
    by rewrite Hd, Hp.
  - apply series_keys. intros key Hkey.
    rewrite !(series_eq _ _ Hkey). by apply buildSeries_order.
  - rewrite !scentStats_eq. apply fmap_Permutation.
    by apply group_values_perm; [apply scent_fold_perm|].
Qed.

Lemma aggregates_order_irrelevant_witness :
  Stats.globalKpis (Stats.processSessions measured_sessions)
    = Stats.globalKpis (Stats.processSessions (reverse measured_sessions)) ∧
  Stats.conditionSeries (Stats.processSessions measured_sessions)
    = Stats.conditionSeries (Stats.processSessions (reverse measured_sessions)) ∧
  Stats.scentStats (Stats.processSessions measured_sessions)
    ≡ₚ Stats.scentStats (Stats.processSessions (reverse measured_sessions)).
Proof.
  apply aggregates_order_irrelevant. symmetry. apply reverse_Permutation.
Defined.

(** ** The route guards *)

(** X17. What the two guards let through.  The page behind [RequireAuth] is
    rendered exactly when the session has been read and there is a user;
    the page behind [RequireAdmin] exactly when, in addition, a profile is
    loaded whose role is the text "admin" (in this very spelling).  So the
    admin guard never lets through what the plain guard stops, and a user
    without profile, or with another role, gets the restricted notice. *)
Theorem guards_let_through (c : Auth.context) :
  (Auth.RequireAuth c = Auth.Children
   ↔ Auth.loading c = false ∧ is_Some (Auth.user c)) ∧
  (Auth.RequireAdmin c = Auth.Children
   ↔ Auth.loading c = false ∧ is_Some (Auth.user c) ∧
     ∃ p, Auth.user_profile c = Some p ∧ Auth.role p = Some "admin") ∧
  (Auth.RequireAdmin c = Auth.Children → Auth.RequireAuth c = Auth.Children) ∧
  (Auth.RequireAdmin c = Auth.Restricted
   ↔ Auth.RequireAuth c = Auth.Children ∧
     ∀ p, Auth.user_profile c = Some p → Auth.role p ≠ Some "admin").
Proof.
  unfold Auth.RequireAuth, Auth.RequireAdmin, Auth.isAdmin.
  destruct c as [u p l]. cbn [Auth.loading Auth.user Auth.user_profile].
  destruct l.
  { split; [|split; [|split]]; try done; split; try done.
    - by intros [? _].
    - by intros [? _].
    - by intros [? _]. }
  destruct u as [u|].
  2:{ split; [|split; [|split]]; try done; split; try done.
      - by intros [_ [? ?]].
      - by intros (_ & [? ?] & _).
      - by intros [? _]. }
  destruct p as [p|]; simpl.
  - case_bool_decide as Hr.
    + split; [|split; [|split]]; try done.
      * split; [|done]. intros _. split; [done|]. split; [by eexists|]. by exists p.
      * split; [done|]. intros [_ Hn]. by destruct (Hn p).
    + split; [|split; [|split]]; try done.
      * split; [done|]. intros (_ & _ & p' & [= <-] & Hp). done.
      * split; [|done]. intros _. split; [done|]. by intros p' [= <-].
  - split; [|split; [|split]]; try done.
    split; [done|]. by intros (_ & _ & p' & ? & _).
Qed.

(** ** The form for a new dog *)

Lemma append_cons c a b : String c a +:+ b = String c (a +:+ b).
Proof. reflexivity. Qed.


Lemma append_nil_r a : a +:+ "" = a.
Proof. induction a as [|c a IH]; [done|]. by rewrite append_cons, IH. Qed.


Lemma skip_spaces_blank s : JS.skip_spaces s = "" ↔ blank s = true.
Proof.
  induction s as [|c r IH]; [done|]. cbn [JS.skip_spaces blank].
  destruct (JS.is_space c); [exact IH|done].
Qed.








(** ** Figures that stay in range *)



Lemma rounded_rate_range (a b : nat) :
  (a ≤ b)%nat → 0 ≤ Stats.rounded_rate a b ∧ Stats.rounded_rate a b ≤ 100.
Proof.
  intros Hab. unfold Stats.rounded_rate.
  destruct (Nat.eqb_spec b 0) as [_|Hb]; [lia|].
  assert (Hpos : (0 < b)%nat) by lia.
  pose proof (percent_nonneg a b Hpos) as H0.
  assert (H100 : (JS.nat2Qc a / JS.nat2Qc b * JS.Z2Qc 100 ≤ JS.Z2Qc 100)%Qc).
  { replace b with (a + (b - a))%nat in * by lia.
    pose proof (percent_nonneg (b - a) (a + (b - a)) Hpos) as H1.
    rewrite <- (percent_complement a (b - a) Hpos) in H1.
    eapply Qcle_shift; [|exact H1]. ring. }
  set (q := (JS.nat2Qc a / JS.nat2Qc b * JS.Z2Qc 100)%Qc) in *.
  assert (Hh : (0 < 1 / 2)%Qc) by by_computation.
  unfold JS.Math_round. split.
  - apply floor_ge_iff. rewrite Z2Qc_inj_0.
    apply Qclt_le_weak in Hh. eapply Qcle_trans; [exact H0|].
    eapply Qcle_shift; [|exact Hh]. ring.
  - destruct (Qcfloor_bounds (q + 1 / 2)%Qc) as [Hl _].
    cut (JS.Qcfloor (q + 1 / 2)%Qc < 101); [lia|].
    apply Z2Qc_inj_lt. eapply Qcle_lt_trans; [exact Hl|].
    assert (Hh1 : (1 / 2 < 1)%Qc) by by_computation.
    change 101 with (100 + 1). rewrite Z2Qc_inj_add, Z2Qc_inj_1.
    eapply Qcle_lt_trans; [apply Qcplus_le_compat; [exact H100|apply Qcle_refl]|].
    eapply Qclt_shift; [|exact Hh1]. ring.
Qed.

(** X21. Every rounded success rate of the statistics page is a whole
    percentage between 0 and 100: the rate of the summary, the rate of
    each row of the scents, and the rate of each point of each series. *)
Theorem rounded_rates_in_range (sessions : list session) :
  let st := Stats.processSessions sessions in
  (0 ≤ Stats.k_successRate (Stats.globalKpis st) ≤ 100) ∧
  (∀ r, r ∈ Stats.scentStats st → 0 ≤ Stats.Scent.successRate r ≤ 100) ∧
  (∀ key p, p ∈ Stats.series_of (Stats.conditionSeries st) key →
            0 ≤ Stats.Cond.successRate p ≤ 100).
Proof.
  cbv zeta. split; [|split].
  - destruct (kpis_counts sessions) as (_ & _ & ->).
    apply rounded_rate_range, length_filter.
  - rewrite scentStats_eq. intros r (e & -> & He)%list_elem_of_fmap.
    cbn [Stats.Scent.successRate].
    apply group_values in He as (k & _ & ->).
    destruct (scent_fold_fields k (members (λ s, Some (scent_label s)) k sessions))
      as (_ & -> & -> & _).
    apply rounded_rate_range, length_filter.
  - intros key p Hp.
    destruct (decide (key ∈ recognized_keys)) as [Hkey|Hkey].
    + rewrite (series_eq _ _ Hkey), buildSeries_perm in Hp.
      apply list_elem_of_fmap in Hp as (e & -> & He).
      cbn [cond_point Stats.Cond.successRate].
      apply group_values in He as (q & _ & ->).
      destruct (cond_fold_fields q (members (λ s, getConditionValue s key) q sessions))
        as (_ & -> & -> & _).
      apply rounded_rate_range, length_filter.
    + exfalso. unfold recognized_keys in Hkey. rewrite !elem_of_cons in Hkey.
      unfold Stats.series_of in Hp.
      repeat (case_bool_decide; [tauto|]). by apply elem_of_nil in Hp.
Qed.

(** ** The two pages on the same sessions *)





(** ** The notice for a condition without data *)



(** ** The order of the rows *)

Section first_occurrences_facts.
Context {X K V : Type} `{EqDecision K}.

Lemma first_occurrences_snoc (ks : list K) (k : K) :
  first_occurrences (ks ++ [k]) =
  if decide (k ∈ ks) then first_occurrences ks else first_occurrences ks ++ [k].
Proof.
  unfold first_occurrences. rewrite reverse_snoc. cbn [remove_dups].
  destruct (decide_rel elem_of k (reverse ks)) as [Hin|Hin];
    rewrite elem_of_reverse in Hin.
  - by rewrite decide_True.
  - rewrite decide_False by done. by rewrite reverse_cons.
Qed.

Lemma group_first_keys_order (keyOf : X → K) (init : X → V) (hit : X → V → V) xs :
  JsMap.keys (foldl (group_step_first keyOf init hit) [] xs)
  = first_occurrences (keyOf <$> xs).
Proof.
  induction xs as [|x xs IH] using rev_ind; [done|].
  rewrite foldl_app, fmap_app. cbn [foldl]. csimpl.
  rewrite first_occurrences_snoc. unfold group_step_first at 1.
  rewrite keys_upsert, IH. unfold JsMap.has.
  destruct (JsMap.get _ (keyOf x)) eqn:Hk.
  - rewrite decide_True; [done|].
    destruct (decide (keyOf x ∈ keyOf <$> xs)) as [|Hn]; [done|].
    assert (JsMap.get (foldl (group_step_first keyOf init hit) [] xs) (keyOf x) = None);
      [|congruence].
    apply get_None_keys. rewrite group_first_keys_elem.
    intros (y & Hy & Hky). apply Hn. rewrite <- Hky. by apply list_elem_of_fmap_2.
  - rewrite decide_False; [done|].
    apply get_None_keys in Hk. rewrite group_first_keys_elem in Hk.
    intros (y & Hky & Hy)%list_elem_of_fmap. apply Hk. by exists y.
Qed.

Lemma group_keys_order (keyOf : X → option K) (init : K → V) (hit : X → V → V) xs :
  JsMap.keys (foldl (group_step keyOf init hit) [] xs)
  = first_occurrences (omap keyOf xs).
Proof.
  induction xs as [|x xs IH] using rev_ind; [done|].
  rewrite foldl_app, omap_app. cbn [foldl]. unfold group_step at 1. csimpl.
  destruct (keyOf x) as [k|] eqn:Hx; csimpl; [|by rewrite app_nil_r].
  rewrite first_occurrences_snoc, keys_upsert, IH. unfold JsMap.has.
  destruct (JsMap.get _ k) eqn:Hk.
  - rewrite decide_True; [done|].
    destruct (decide (k ∈ omap keyOf xs)) as [|Hn]; [done|].
    assert (JsMap.get (foldl (group_step keyOf init hit) [] xs) k = None);
      [|congruence].
    apply get_None_keys. rewrite group_keys_elem.
    intros (y & Hy & Hky). apply Hn. apply list_elem_of_omap. by exists y.
  - rewrite decide_False; [done|].
    apply get_None_keys in Hk. rewrite group_keys_elem in Hk.
    intros (y & Hy & Hky)%list_elem_of_omap. apply Hk. by exists y.
Qed.
End first_occurrences_facts.

(** X24. The tables of the dogs and of the scents list their rows in the
    order in which the keys are first met among the sessions: the row of a
    dog (or of a scent) stands where the first session of that dog (or
    with that scent label) stands among the first sessions of the others. *)
Theorem rows_in_order_met (sessions : list session) :
  (λ r, Stats.Dog.dogId (Stats.Dog.d r))
    <$> Stats.perDogStats (Stats.processSessions sessions)
  = first_occurrences (dog_key <$> sessions) ∧
  (λ r, Stats.Scent.scent (Stats.Scent.s r))
    <$> Stats.scentStats (Stats.processSessions sessions)
  = first_occurrences (scent_label <$> sessions).
Proof.
  split.
  - rewrite perDogStats_eq. rewrite <- group_first_keys_order with (init := dog_init)
      (hit := dog_hit).
    set (m := foldl _ [] sessions).
    unfold JsMap.values, JsMap.keys. rewrite <- !list_fmap_compose.
    apply list_fmap_ext. intros i [k e] Hi. simpl.
    apply list_elem_of_lookup_2, group_first_entries in Hi as (s0 & l & Hf & ->).
    destruct (dog_fold_fields s0 (s0 :: l)) as (-> & _).
    assert (Hs0 : s0 ∈ filter (λ x, dog_key x = k) sessions) by (rewrite Hf; left).
    by apply list_elem_of_filter in Hs0 as [? _].
  - rewrite scentStats_eq.
    assert (E : scent_label <$> sessions = omap (λ s, Some (scent_label s)) sessions).
    { induction sessions as [|s l IH]; [done|]. csimpl. by rewrite IH. }
    rewrite E, <- group_keys_order with (init := scent_init) (hit := scent_hit).
    set (m := foldl _ [] sessions).
    unfold JsMap.values, JsMap.keys. rewrite <- !list_fmap_compose.
    apply list_fmap_ext. intros i [k e] Hi. simpl.
    apply list_elem_of_lookup_2, group_entries in Hi as [_ ->].
    apply scent_fold_fields.
Qed.
